(** * SNOWFLAKE_LLMOps: the RAG pipeline of [snowflake_llmops_quickstart.ipynb]

    A shallow embedding of the notebook's three classes
    ([CortexSearchRetriever], [RAG_from_scratch], [filtered_RAG_from_scratch])
    and of its recording loop.  The services the notebook talks to (Cortex
    Search, Cortex [Complete], the feedback provider) are external: they are
    fields of a [Services] record over an abstract state of the outside world,
    so that a call may change that state, may answer differently the next time
    and may raise.  The TruLens decorators ([instrument], [context_filter])
    and the feedback machinery are not part of the repository; they are
    modelled from the specification and marked as such. *)

From Stdlib Require Import ZArith Ascii String List Floats.
From stdpp Require Import base option list gmap strings.

Local Open Scope Z_scope.
Local Open Scope list_scope.

#[local] Set Warnings "-inexact-float,-register-all".

(** ** Exceptions and the state-and-exception monad *)

(** The failure kinds of the specification's taxonomy, and Python's
    [KeyError] for a subscript on a missing dictionary key. *)
Inductive exn : Type :=
  | UpstreamUnavailable
  | SelectionNotFound
  | KeyError (key : string).

Inductive result (A : Type) : Type :=
  | Ok (a : A)
  | Raise (e : exn).
Arguments Ok {A} a.
Arguments Raise {A} e.

Definition is_ok {A} (r : result A) : bool :=
  match r with Ok _ => true | Raise _ => false end.

(** A computation over a state [S] returns or raises, and leaves a state
    behind in both cases. *)
Definition ST (S A : Type) : Type := S -> result A * S.

Definition st_ret {S A} (a : A) : ST S A := fun s => (Ok a, s).

Definition st_raise {S A} (e : exn) : ST S A := fun s => (Raise e, s).

Definition st_bind {S A B} (k : A -> ST S B) (m : ST S A) : ST S B :=
  fun s =>
    match m s with
    | (Ok a, s') => k a s'
    | (Raise e, s') => (Raise e, s')
    end.

#[global] Instance ST_ret {S} : MRet (ST S) := @st_ret S.
#[global] Instance ST_bind {S} : MBind (ST S) := @st_bind S.

(** ** Data of the notebook *)

(** One row of a search response: a Python dictionary from column name to
    text. *)
Abbreviation row := (gmap string string).

Record SearchResponse : Type := { results : list row }.

(** The external services, over the state [World] of the outside.
    [cortex_search] stands for
    [Root(session).databases[..].schemas[..].cortex_search_services[..].search],
    with the service looked up through the session and the process
    environment; [Complete] is [snowflake.cortex.Complete]; [context_relevance]
    is [provider.context_relevance], the scoring function handed to
    [Feedback]. *)
Record Services (Session World : Type) : Type := {
  cortex_search : Session -> string -> list string -> Z -> ST World SearchResponse;
  Complete : string -> string -> ST World string;
  context_relevance : string -> string -> ST World float
}.
Arguments cortex_search {Session World} _ _ _ _ _ _.
Arguments Complete {Session World} _ _ _ _.
Arguments context_relevance {Session World} _ _ _ _.

(** [class CortexSearchRetriever]: the two attributes set by [__init__]. *)
Record CortexSearchRetriever (Session : Type) : Type := {
  _session : Session;
  _limit_to_retrieve : Z
}.
Arguments _session {Session} _.
Arguments _limit_to_retrieve {Session} _.

(** [curr[key]] on a dictionary: the value, or [KeyError]. *)
Definition getitem {S} (curr : row) (key : string) : ST S string :=
  match curr !! key with
  | Some v => mret v
  | None => st_raise (KeyError key)
  end.

Section Retriever.
Context {Session World : Type} (svc : Services Session World).

(** [CortexSearchRetriever.retrieve]: one search for the column
    [doc_text], then the comprehension over [resp.results] when that list
    is truthy (non-empty), the empty list otherwise. *)
Definition retrieve (self : CortexSearchRetriever Session) (query : string)
  : ST World (list string) :=
  resp ← cortex_search svc (_session self) query ["doc_text"%string]
           (_limit_to_retrieve self);
  if bool_decide (results resp ≠ [])
  then mapM (λ curr, getitem curr "doc_text") (results resp)
  else mret [].

End Retriever.

(** ** Call records and the instrumentation recorder *)

(** The values the instrumented steps take and return: a string (a query, a
    completion) or a list of passages. *)
Inductive value : Type :=
  | VStr (s : string)
  | VList (l : list string).

Inductive outcome : Type :=
  | Returned (v : value)
  | Failed (e : exn).

(** One instrumented step invocation: step name, input bindings, output or
    error marker, and the completed sub-calls in invocation order.  The
    parent reference is the tree itself; timestamps are not modelled. *)
Inductive CallRecord : Type :=
  mkCallRecord {
    step_name : string;
    inputs : list (string * value);
    output : outcome;
    children : list CallRecord
  }.

(** The state instrumented code runs in: the outside world, and the records
    finalized so far at the current nesting level (at top level, the roots
    of the recording). *)
Record Recorder (World : Type) : Type := {
  world : World;
  calls : list CallRecord
}.
Arguments world {World} _.
Arguments calls {World} _.

Definition outcome_of {A} (to_value : A -> value) (r : result A) : outcome :=
  match r with
  | Ok a => Returned (to_value a)
  | Raise e => Failed e
  end.

Definition succeeded (c : CallRecord) : bool :=
  match output c with Returned _ => true | Failed _ => false end.

(** The value bound to a parameter name in the input bindings of a call. *)
Fixpoint binding (name : string) (bindings : list (string * value)) : option value :=
  match bindings with
  | [] => None
  | (k, v) :: rest => if String.eqb k name then Some v else binding name rest
  end.

(** The shape of the record of one run of [query]: a root named [query]
    with exactly two children, the [retrieve_context] record and then the
    [generate_completion] record, the output [ctx] of the first being the
    [context_str] input of the second. *)
Definition retrieve_then_generate (root : CallRecord) (ctx : value) : Prop :=
  exists first second,
    step_name root = "query"%string
    /\ children root = [first; second]
    /\ step_name first = "retrieve_context"%string
    /\ step_name second = "generate_completion"%string
    /\ output first = Returned ctx
    /\ binding "context_str" (inputs second) = Some ctx.

Section Instrumentation.
Context {World : Type}.

(** Code that is not instrumented only sees the outside world. *)
Definition external {A} (m : ST World A) : ST (Recorder World) A :=
  fun st =>
    let '(r, w) := m (world st) in
    (r, {| world := w; calls := calls st |}).

(** Modelled from the spec: the [instrument] decorator of TruLens (section
    4.1, begin/end), which is not part of the repository.  The wrapped
    step runs with an empty child list; when it returns or raises, its
    record is finalized with the output or the error marker and with the
    sub-calls made meanwhile as children, and is appended as the last child
    of the enclosing call (or as a new root).  The result, an error
    included, reaches the caller unchanged. *)
Definition instrument {A} (name : string) (bindings : list (string * value))
    (to_value : A -> value) (body : ST (Recorder World) A)
  : ST (Recorder World) A :=
  fun st =>
    let '(r, st') := body {| world := world st; calls := [] |} in
    (r, {| world := world st';
           calls := calls st ++
             [mkCallRecord name bindings (outcome_of to_value r) (calls st')] |}).

End Instrumentation.

(** ** Python's [str] of a list of strings *)

Definition nl : string := String "010"%char EmptyString.

Fixpoint join (sep : string) (l : list string) : string :=
  match l with
  | [] => ""
  | [s] => s
  | s :: rest => s +:+ sep +:+ join sep rest
  end.

(** [str(l)] for a list [l] of strings: the [repr] of each element, comma
    separated, in brackets.  [py_repr] is Python's built-in [repr] on [str]
    (quoting and escaping), taken as a parameter. *)
Definition str_of_list (py_repr : string -> string) (l : list string) : string :=
  "[" +:+ join ", " (map py_repr l) +:+ "]".

(** [s] occurs in [t]. *)
Definition embeds (s t : string) : Prop :=
  exists before after, t = before +:+ s +:+ after.

(** ** The unguarded pipeline *)

Module RAG_from_scratch.
Section RAG_from_scratch.
Context {Session World : Type} (svc : Services Session World).
Context (py_repr : string -> string).

Record t : Type := { retriever : CortexSearchRetriever Session }.

Definition retrieve_context (self : t) (query : string)
  : ST (Recorder World) (list string) :=
  instrument "retrieve_context" [("query"%string, VStr query)] VList
    (external (retrieve svc (retriever self) query)).

(** The f-string of [generate_completion], line by line. *)
Definition prompt (query : string) (context_str : list string) : string :=
  nl +:+
  "          You are an expert assistant extracting information from context provided." +:+ nl +:+
  "          Answer the question based on the context. Be concise and do not hallucinate." +:+ nl +:+
  "          If you don´t have the information just say so." +:+ nl +:+
  "          Context: " +:+ str_of_list py_repr context_str +:+ nl +:+
  "          Question:" +:+ nl +:+
  "          " +:+ query +:+ nl +:+
  "          Answer:" +:+ nl +:+
  "        ".

Definition generate_completion (self : t) (query : string)
    (context_str : list string) : ST (Recorder World) string :=
  instrument "generate_completion"
    [("query"%string, VStr query); ("context_str"%string, VList context_str)] VStr
    (external (Complete svc "mistral-large" (prompt query context_str))).

Definition query (self : t) (query : string) : ST (Recorder World) string :=
  instrument "query" [("query"%string, VStr query)] VStr
    (context_str ← retrieve_context self query;
     generate_completion self query context_str).

End RAG_from_scratch.
End RAG_from_scratch.

(** ** The guardrail *)

Section Guardrail.
Context {World : Type}.

(** The passages kept, given one score per passage: those whose score is
    at least the threshold. *)
Definition retained (threshold : float) (contexts : list string)
    (scores : list float) : list string :=
  (filter (λ cs : string * float, PrimFloat.leb threshold cs.2 = true)
          (zip contexts scores)).*1.

(** Modelled from the spec: the [context_filter] decorator of TruLens
    (section 4.3), which is not part of the repository.  The wrapped step
    is called first; every passage it returns is scored by the feedback
    function on (query, passage), one score per passage; the passages
    whose score is at least the threshold are returned.  The wrapped step
    has the single parameter [query], the one [keyword_for_prompt] names.
    The per-passage evaluations are not recorded as sub-steps. *)
Definition context_filter (feedback : string -> string -> ST World float)
    (threshold : float) (func : string -> ST World (list string))
    (query : string) : ST World (list string) :=
  contexts ← func query;
  scores ← mapM (feedback query) contexts;
  mret (retained threshold contexts scores).

(** [scored feedback query contexts w scores w']: from the world [w], each
    passage in turn was scored by one call of the feedback function on
    (query, that passage); the calls returned [scores], one per passage,
    and left the world [w']. *)
Inductive scored (feedback : string -> string -> ST World float) (query : string)
  : list string -> World -> list float -> World -> Prop :=
  | scored_nil w : scored feedback query [] w [] w
  | scored_cons context contexts s scores w w1 w2 :
      feedback query context w = (Ok s, w1) ->
      scored feedback query contexts w1 scores w2 ->
      scored feedback query (context :: contexts) w (s :: scores) w2.

End Guardrail.

(** ** The guarded pipeline *)

Module filtered_RAG_from_scratch.
Section filtered_RAG_from_scratch.
Context {Session World : Type} (svc : Services Session World).

Record t : Type := { retriever : CortexSearchRetriever Session }.

(** The body of [retrieve_context], below the two decorators. *)
Definition retrieve_context_body (self : t) (query : string)
  : ST World (list string) :=
  results ← retrieve svc (retriever self) query;
  mret results.

(** [@instrument @context_filter(f_context_relevance_score, 0.75,
    keyword_for_prompt="query")]: the recorder is outermost, so the record
    holds the filtered list. *)
Definition retrieve_context (self : t) (query : string)
  : ST (Recorder World) (list string) :=
  instrument "retrieve_context" [("query"%string, VStr query)] VList
    (external (context_filter (context_relevance svc) 0.75%float
                 (retrieve_context_body self) query)).

Definition generate_completion (self : t) (query : string)
    (context_str : list string) : ST (Recorder World) string :=
  instrument "generate_completion"
    [("query"%string, VStr query); ("context_str"%string, VList context_str)] VStr
    (completion ← external (Complete svc "mistral-large" query);
     mret completion).

Definition query (self : t) (query : string) : ST (Recorder World) string :=
  instrument "query" [("query"%string, VStr query)] VStr
    (context_str ← retrieve_context self query;
     completion ← generate_completion self query context_str;
     mret completion).

End filtered_RAG_from_scratch.
End filtered_RAG_from_scratch.

(** ** The recording loop *)

Section Recording.
Context {World : Type}.

(** [for prompt in prompts: rag.query(prompt)]: the result of each call is
    dropped; an exception leaves the loop. *)
Fixpoint recording_loop (query : string -> ST (Recorder World) string)
    (prompts : list string) : ST (Recorder World) unit :=
  match prompts with
  | [] => mret tt
  | prompt :: rest => _ ← query prompt; recording_loop query rest
  end.

(** [with tru_rag as recording: ...]: the loop starts from an empty
    recording; the records it leaves are the roots of the recording. *)
Definition record_batch (query : string -> ST (Recorder World) string)
    (prompts : list string) (w : World) : result unit * Recorder World :=
  recording_loop query prompts {| world := w; calls := [] |}.

(** [all_return query prompts st st']: run one after the other from the
    state [st], the queries [prompts] all return, and leave the state [st']. *)
Inductive all_return (query : string -> ST (Recorder World) string)
  : list string -> Recorder World -> Recorder World -> Prop :=
  | all_return_nil st : all_return query [] st st
  | all_return_cons prompt prompts a st st1 st2 :
      query prompt st = (Ok a, st1) ->
      all_return query prompts st1 st2 ->
      all_return query (prompt :: prompts) st st2.

(** A query on which the pipeline returns, whatever the state it is run
    in; a query on which it raises [e], whatever the state. *)
Definition always_returns (query : string -> ST (Recorder World) string)
    (prompt : string) : Prop :=
  forall st, is_ok (query prompt st).1 = true.

Definition always_raises (query : string -> ST (Recorder World) string)
    (e : exn) (prompt : string) : Prop :=
  forall st, (query prompt st).1 = Raise e.

(** Partial-failure isolation, as the specification words it: of the [N]
    queries of the batch, [N - 1] leave a successful record and one leaves
    an error record. *)
Definition isolates_failure (query : string -> ST (Recorder World) string)
    (prompts : list string) (w : World) : Prop :=
  let records := calls (record_batch query prompts w).2 in
  length (filter (λ c, succeeded c = true) records) = (length prompts - 1)%nat
  /\ length (filter (λ c, succeeded c = false) records) = 1%nat.

End Recording.

(** ** Feedback evaluation *)

(** The closed set of selectors over a call-record tree. *)
Inductive selector : Type :=
  | RootInput
  | RootOutput
  | DescendantOutputsByName (name : string).

Definition strings_of (v : value) : list string :=
  match v with
  | VStr s => [s]
  | VList l => l
  end.

(** The records below a call, in invocation order, each before its own
    sub-calls. *)
Fixpoint descendants (c : CallRecord) : list CallRecord :=
  flat_map (λ child, child :: descendants child) (children c).

Definition returned_strings (c : CallRecord) : list string :=
  match output c with
  | Returned v => strings_of v
  | Failed _ => []
  end.

(** A selection that yields no value matched no data. *)
Definition found (values : list string) : result (list string) :=
  match values with
  | [] => Raise SelectionNotFound
  | _ :: _ => Ok values
  end.

(** Modelled from the spec: the selection of sections 4.4 and 7, which
    TruLens' [Select] performs and the repository does not contain.  The root
    call's declared input, its final output, or the collected outputs of all
    descendant calls with the given step name.  A selection that matches no
    data fails with [SelectionNotFound], never with a default: no call of
    that name, or calls that all failed or returned nothing, give no value to
    score. *)
Definition select (sel : selector) (tree : CallRecord) : result (list string) :=
  match sel with
  | RootInput =>
      match inputs tree with
      | (_, v) :: _ => found (strings_of v)
      | [] => Raise SelectionNotFound
      end
  | RootOutput => found (returned_strings tree)
  | DescendantOutputsByName name =>
      found (flat_map returned_strings
               (filter (λ c, step_name c = name) (descendants tree)))
  end.

(** A named evaluator, the two selections that feed it, and the aggregation
    applied when the selections yield several values.  The specification
    makes the aggregation optional: a spec without one has single-valued
    selections, for which [fs_aggregate] is not called. *)
Record FeedbackSpec (World : Type) : Type := {
  fs_name : string;
  fs_evaluator : string -> string -> ST World float;
  fs_first : selector;
  fs_second : selector;
  fs_aggregate : list float -> float
}.
Arguments fs_name {World} _.
Arguments fs_evaluator {World} _ _ _ _.
Arguments fs_first {World} _.
Arguments fs_second {World} _.
Arguments fs_aggregate {World} _ _.

Record FeedbackResult : Type := {
  fr_name : string;
  fr_score : float
}.

Section Feedback.
Context {World : Type}.

Definition lift_result {A} (r : result A) : ST World A := fun w => (r, w).

(** Modelled from the spec: [evaluate] of section 4.4, which TruLens'
    [Feedback] performs and the repository does not contain.  Both
    selections are taken from the tree; the evaluator scores every pair of
    selected values; one score is the result as it is, several are
    aggregated. *)
Definition evaluate (spec : FeedbackSpec World) (tree : CallRecord)
  : ST World FeedbackResult :=
  xs ← lift_result (select (fs_first spec) tree);
  ys ← lift_result (select (fs_second spec) tree);
  scores ← mapM (λ xy : string * string, fs_evaluator spec xy.1 xy.2)
                (list_prod xs ys);
  mret {| fr_name := fs_name spec;
          fr_score := match scores with
                      | [s] => s
                      | _ => fs_aggregate spec scores
                      end |}.

(** Modelled from the spec: the invocations the leaderboard aggregates
    over (section 4.5).  A failed invocation is recorded with its error
    and excluded from aggregate scoring. *)
Definition scored_invocations (records : list CallRecord) : list CallRecord :=
  filter (λ c, succeeded c = true) records.

(** An evaluator whose score depends on its two arguments only, not on the
    state of the outside world: the pure scoring function of the
    specification's section 2. *)
Definition deterministic (ev : string -> string -> ST World float) : Prop :=
  forall a b w1 w2, (ev a b w1).1 = (ev a b w2).1.

End Feedback.

(** [f_context_relevance]: [provider.context_relevance] on the root input
    and on each output of the calls named [retrieve_context], aggregated
    with [np.mean] (NumPy's, taken as a parameter). *)
Definition f_context_relevance {Session World} (svc : Services Session World)
    (np_mean : list float -> float) : FeedbackSpec World :=
  {| fs_name := "Context Relevance";
     fs_evaluator := context_relevance svc;
     fs_first := RootInput;
     fs_second := DescendantOutputsByName "retrieve_context";
     fs_aggregate := np_mean |}.

(** ** A concrete outside world

    For examples: services that answer from fixed tables and keep a log of
    the calls they received. *)
Module Probe.

Record World : Type := {
  searched : list string;
  completed : list (string * string);
  judged : list (string * string)
}.

Definition fresh : World :=
  {| searched := []; completed := []; judged := [] |}.

Definition services (corpus : string -> result (list row))
    (answer : string -> result string) (judge : string -> string -> float)
  : Services unit World :=
  {| cortex_search := λ _ query _ _ w,
       (match corpus query with
        | Ok rows => Ok {| results := rows |}
        | Raise e => Raise e
        end,
        {| searched := searched w ++ [query];
           completed := completed w; judged := judged w |});
     Complete := λ model prompt w,
       (answer prompt,
        {| searched := searched w;
           completed := completed w ++ [(model, prompt)];
           judged := judged w |});
     context_relevance := λ query passage w,
       (Ok (judge query passage),
        {| searched := searched w; completed := completed w;
           judged := judged w ++ [(query, passage)] |}) |}.

Definition doc (text : string) : row := {[ "doc_text"%string := text ]}.

(** [repr] on strings without quotes, backslashes or control characters. *)
Definition quote (s : string) : string := "'" +:+ s +:+ "'".

Definition retriever : CortexSearchRetriever unit :=
  {| _session := tt; _limit_to_retrieve := 4 |}.

(** A search service that is down for the query [down], finds nothing for
    the query [nothing] and four passages for any other query; a judge
    that gives these passages the scores 0.9, 0.8, 0.6 and 0.4; a
    completion service that answers every prompt. *)
Definition corpus (query : string) : result (list row) :=
  if String.eqb query "down" then Raise UpstreamUnavailable
  else if String.eqb query "nothing" then Ok []
  else Ok [doc "p1"; doc "p2"; doc "p3"; doc "p4"].

Definition judge (query passage : string) : float :=
  if String.eqb passage "p1" then 0.9%float
  else if String.eqb passage "p2" then 0.8%float
  else if String.eqb passage "p3" then 0.6%float
  else 0.4%float.

Definition answer (prompt : string) : result string :=
  Ok ("answer to " +:+ prompt).

Definition demo : Services unit World := services corpus answer judge.

(** The same services, with a judge that does not repeat itself: it gives
    the score 1 on the first call it receives and 0 on every later call. *)
Definition moody : Services unit World :=
  {| cortex_search := cortex_search demo;
     Complete := Complete demo;
     context_relevance := λ query passage w,
       (Ok (match judged w with [] => 1%float | _ :: _ => 0%float end),
        {| searched := searched w; completed := completed w;
           judged := judged w ++ [(query, passage)] |}) |}.

(** The same services, with the completion service down. *)
Definition unanswered : Services unit World :=
  services corpus (λ _, Raise UpstreamUnavailable) judge.

Definition rag : RAG_from_scratch.t :=
  {| RAG_from_scratch.retriever := retriever |}.

Definition filtered_rag : filtered_RAG_from_scratch.t :=
  {| filtered_RAG_from_scratch.retriever := retriever |}.

Definition start : Recorder World := {| world := fresh; calls := [] |}.

End Probe.

(** ** Text cleaning *)

(** A Python [str] as the sequence of its Unicode code points. *)
Abbreviation text := (list N).

(** The code points of an ASCII literal of the source. *)
Fixpoint codes (s : string) : text :=
  match s with
  | EmptyString => []
  | String c rest => N_of_ascii c :: codes rest
  end.

(** A pattern tried at the start of a text: when it matches, the text that
    replaces the match and the number of code points matched. *)
Abbreviation matcher := (text -> option (text * nat)).

(** [re.sub] for a pattern that matches no empty text: the text is scanned
    from the left; where the pattern matches, the replacement is written and
    the scan goes on behind the match; elsewhere the code point is copied.
    [skip] counts the code points of the current match still to pass. *)
Fixpoint sub_from (m : matcher) (skip : nat) (content : text) : text :=
  match content with
  | [] => []
  | c :: rest =>
      match skip with
      | S n => sub_from m n rest
      | O =>
          match m content with
          | Some (replacement, n) => replacement ++ sub_from m (n - 1) rest
          | None => c :: sub_from m 0 rest
          end
      end
  end.

Definition re_sub (m : matcher) (content : text) : text := sub_from m 0 content.

(** A matcher that never writes more than it matched, and matches at least
    one code point of the text. *)
Definition shrinking (m : matcher) : Prop :=
  forall content replacement n,
    m content = Some (replacement, n) ->
    (length replacement <= n /\ 1 <= n <= length content)%nat.

(** The longest prefix of code points of a class. *)
Fixpoint run_of (class : N -> bool) (content : text) : text :=
  match content with
  | c :: rest => if class c then c :: run_of class rest else []
  | [] => []
  end.

Fixpoint starts_with (pattern content : text) : bool :=
  match pattern, content with
  | [], _ => true
  | a :: pattern', c :: rest => N.eqb a c && starts_with pattern' rest
  | _ :: _, [] => false
  end.

(** A pattern without metacharacters, replaced by the empty text. *)
Definition literal (pattern : text) : matcher :=
  fun content =>
    if starts_with pattern content then Some ([], length pattern) else None.

Section Cleaning.
(** The classes [\w] and [\s] of [re] on [str] patterns: Unicode word
    characters and Unicode whitespace, as predicates on code points. *)
Context (is_word is_space : N -> bool).

(** [(\w+)-\n(\w+)] replaced by [\1\2].  The first group is greedy: it is
    extended as far as the rest of the pattern still matches, and gives
    code points back otherwise; the second group takes the whole run. *)
Fixpoint hyphenated (content : text) : option (text * nat) :=
  match content with
  | c :: rest =>
      if is_word c then
        match hyphenated rest with
        | Some (joined, n) => Some (c :: joined, S n)
        | None =>
            match rest with
            | a :: b :: rest' =>
                if N.eqb a 45 && N.eqb b 10 then
                  match run_of is_word rest' with
                  | [] => None
                  | second => Some (c :: second, 3 + length second)%nat
                  end
                else None
            | _ => None
            end
        end
      else None
  | [] => None
  end.

(** [\\slug: [^\s]*] replaced by the empty text. *)
Definition slug (content : text) : option (text * nat) :=
  let head := codes "\slug: " in
  if starts_with head content
  then Some ([], length head
                 + length (run_of (fun c => negb (is_space c))
                                  (drop (length head) content)))%nat
  else None.

(** [\s+] replaced by one space. *)
Definition spaces (content : text) : option (text * nat) :=
  match run_of is_space content with
  | [] => None
  | blank => Some ([32%N], length blank)
  end.

Definition unwanted_patterns : list text :=
  [codes ("---" +:+ nl +:+ "visible: false"); codes "---"; codes "#"; codes "slug:"].

Definition clean_up_text (content : text) : text :=
  let content := re_sub hyphenated content in
  let content :=
    fold_left (fun content pattern => re_sub (literal pattern) content)
              unwanted_patterns content in
  let content := re_sub slug content in
  let content := re_sub spaces content in
  content.

(** A text whose whitespace is normalized: every whitespace code point is
    the space U+0020 and is not followed by whitespace. *)
Definition head_not_space (content : text) : Prop :=
  match content with
  | [] => True
  | c :: _ => is_space c = false
  end.

Fixpoint normalized (content : text) : Prop :=
  match content with
  | [] => True
  | c :: rest =>
      (is_space c = true -> c = 32%N /\ head_not_space rest) /\ normalized rest
  end.

End Cleaning.

(** ** Cleaning the loaded documents *)

(** The document objects live in a store, addressed by position; a list of
    documents is a list of addresses, so that two lists, or two places of one
    list, can hold the same object. *)
Abbreviation store := (list text).

(** [for d in documents: cleaned_text = clean_up_text(d.text);
    d.text = cleaned_text; cleaned_documents.append(d)], from the store
    [objects] and the list [cleaned_documents] built so far.  An address
    outside the store does not occur in a list of live objects; the loop
    passes it over. *)
Fixpoint clean_documents (clean : text -> text) (documents : list nat)
    (objects : store) (cleaned_documents : list nat) : store * list nat :=
  match documents with
  | [] => (objects, cleaned_documents)
  | d :: rest =>
      match objects !! d with
      | Some d_text =>
          let cleaned_text := clean d_text in
          clean_documents clean rest (<[d := cleaned_text]> objects)
                          (cleaned_documents ++ [d])
      | None => clean_documents clean rest objects cleaned_documents
      end
  end.

(** ** Constructing the pipelines *)

(** What a call can raise before the body of the callee runs: an argument
    expression that names an unbound global, a keyword that is not a
    parameter of the callee, a parameter without default left unbound. *)
Inductive call_error : Type :=
  | NameError (name : string)
  | UnexpectedKeyword (keyword : string)
  | MissingArgument (parameter : string).

(** Binding the keywords of a call to the parameters of the callee, each
    parameter with the flag of having a default: the first keyword that
    names no parameter is an error, then the first parameter without
    default that no keyword names. *)
Definition bind_keywords (parameters : list (string * bool))
    (keywords : list string) : option call_error :=
  match filter (fun k => k ∉ parameters.*1) keywords with
  | k :: _ => Some (UnexpectedKeyword k)
  | [] =>
      match filter (fun p : string * bool => p.2 = false /\ p.1 ∉ keywords)
                   parameters with
      | p :: _ => Some (MissingArgument p.1)
      | [] => None
      end
  end.

(** [def __init__(self, session: Session, limit_to_retrieve: int = 4)]. *)
Definition CortexSearchRetriever_parameters : list (string * bool) :=
  [("session"%string, false); ("limit_to_retrieve"%string, true)].

Section Construction.
Context {Session : Type}.

(** The global names of the notebook that are bound to a session. *)
Abbreviation globals := (gmap string Session).

Definition global (names : globals) (name : string) : call_error + Session :=
  match names !! name with
  | Some v => inr v
  | None => inl (NameError name)
  end.

(** [RAG_from_scratch.__init__]:
    [CortexSearchRetriever(snowpark_session=snowpark_session,
    limit_to_retrieve=4)]. *)
Definition RAG_from_scratch_init (names : globals)
  : call_error + @RAG_from_scratch.t Session :=
  match global names "snowpark_session" with
  | inl e => inl e
  | inr snowpark_session =>
      match bind_keywords CortexSearchRetriever_parameters
              ["snowpark_session"%string; "limit_to_retrieve"%string] with
      | Some e => inl e
      | None =>
          inr {| RAG_from_scratch.retriever :=
                   {| _session := snowpark_session; _limit_to_retrieve := 4 |} |}
      end
  end.

(** [filtered_RAG_from_scratch.__init__]:
    [CortexSearchRetriever(session=session, limit_to_retrieve=4)]. *)
Definition filtered_RAG_from_scratch_init (names : globals)
  : call_error + @filtered_RAG_from_scratch.t Session :=
  match global names "session" with
  | inl e => inl e
  | inr session =>
      match bind_keywords CortexSearchRetriever_parameters
              ["session"%string; "limit_to_retrieve"%string] with
      | Some e => inl e
      | None =>
          inr {| filtered_RAG_from_scratch.retriever :=
                   {| _session := session; _limit_to_retrieve := 4 |} |}
      end
  end.

End Construction.

(** The ASCII part of the two classes, for examples. *)
Module Ascii_classes.

Definition is_space (c : N) : bool :=
  bool_decide (c ∈ [9; 10; 11; 12; 13; 32]%N).

Definition is_word (c : N) : bool :=
  bool_decide ((48 <= c <= 57)%N \/ (65 <= c <= 90)%N \/ c = 95%N
               \/ (97 <= c <= 122)%N).

End Ascii_classes.

(** * Properties *)

(** ** Running a computation *)

Lemma run_bind_ok {S A B} (m : ST S A) (k : A -> ST S B) s a s' :
  m s = (Ok a, s') -> (x ← m; k x) s = k a s'.
Proof. intros Hm. unfold mbind, ST_bind, st_bind. now rewrite Hm. Qed.

Lemma run_bind_raise {S A B} (m : ST S A) (k : A -> ST S B) s e s' :
  m s = (Raise e, s') -> (x ← m; k x) s = (Raise e, s').
Proof. intros Hm. unfold mbind, ST_bind, st_bind. now rewrite Hm. Qed.

Lemma run_external {World A} (m : ST World A) (st : Recorder World) :
  external m st = ((m (world st)).1, {| world := (m (world st)).2; calls := calls st |}).
Proof. unfold external. now destruct (m (world st)). Qed.

Lemma run_instrument {World A} name bindings (to_value : A -> value)
    (body : ST (Recorder World) A) (st : Recorder World) r st' :
  body {| world := world st; calls := [] |} = (r, st') ->
  instrument name bindings to_value body st =
  (r, {| world := world st';
         calls := calls st ++
           [mkCallRecord name bindings (outcome_of to_value r) (calls st')] |}).
Proof. intros Hb. unfold instrument. now rewrite Hb. Qed.

(** One step of [mapM] in the state-and-exception monad: the head is
    processed first, the tail from the state the head leaves. *)
Lemma run_mapM_cons {S A B} (f : A -> ST S B) (x : A) (l : list A) (s : S) :
  mapM f (x :: l) s =
  match f x s with
  | (Ok y, s1) =>
      match mapM f l s1 with
      | (Ok k, s2) => (Ok (y :: k), s2)
      | (Raise e, s2) => (Raise e, s2)
      end
  | (Raise e, s1) => (Raise e, s1)
  end.
Proof. reflexivity. Qed.

(** The comprehension [[curr[key] for curr in rows]] does not touch the
    state; it returns the looked-up texts, or raises at a row without the
    key. *)
Lemma mapM_getitem {S} (key : string) (rows : list row) (s : S) :
  mapM (λ curr, getitem curr key) rows s =
  (match mapM (λ curr : row, curr !! key) rows with
   | Some texts => Ok texts
   | None => Raise (KeyError key)
   end, s).
Proof.
  induction rows as [|curr rows IH]; [reflexivity|].
  rewrite run_mapM_cons. unfold getitem at 1. cbn [mapM].
  destruct (curr !! key) as [v|]; cbn; [|reflexivity].
  rewrite IH.
  now destruct (mapM (λ curr : row, curr !! key) rows).
Qed.

(** The retriever, once the search has answered. *)
Lemma retrieve_after_search {Session World} (svc : Services Session World)
    (self : CortexSearchRetriever Session) (q : string) (w w1 : World) resp :
  cortex_search svc (_session self) q ["doc_text"%string] (_limit_to_retrieve self) w
    = (Ok resp, w1) ->
  retrieve svc self q w =
  (match mapM (λ curr : row, curr !! "doc_text"%string) (results resp) with
   | Some texts => Ok texts
   | None => Raise (KeyError "doc_text")
   end, w1).
Proof.
  intros Hs. unfold retrieve. rewrite (run_bind_ok _ _ _ _ _ Hs).
  case_bool_decide as Hne.
  - apply mapM_getitem.
  - now rewrite Hne.
Qed.

(** ** The retriever *)

(** C5: the passages the retriever returns are exactly the [doc_text] fields
    of the search results, in the order the search service returned them:
    the same number, position by position. *)
Theorem retrieve_returns_doc_text_in_search_order {Session World}
    (svc : Services Session World) (self : CortexSearchRetriever Session)
    (q : string) (w w1 : World) (resp : SearchResponse) :
  cortex_search svc (_session self) q ["doc_text"%string] (_limit_to_retrieve self) w
    = (Ok resp, w1) ->
  forall passages : list string,
    retrieve svc self q w = (Ok passages, w1) <->
    Forall2 (λ (curr : row) p, curr !! "doc_text"%string = Some p)
            (results resp) passages.
Proof.
  intros Hs passages. rewrite (retrieve_after_search _ _ _ _ _ _ Hs).
  rewrite <- (mapM_Some (λ curr : row, curr !! "doc_text"%string)).
  destruct (mapM (λ curr : row, curr !! "doc_text"%string) (results resp));
    split; intros H; congruence.
Qed.

Lemma retrieve_returns_doc_text_in_search_order_witness :
  retrieve (Probe.services (λ _, Ok [Probe.doc "first"; Probe.doc "second"])
              (λ p, Ok p) (λ _ _, 1%float))
    Probe.retriever "q" Probe.fresh
  = (Ok ["first"; "second"]%string,
     {| Probe.searched := ["q"%string]; Probe.completed := []; Probe.judged := [] |}).
Proof.
  apply (retrieve_returns_doc_text_in_search_order
           (Probe.services (λ _, Ok [Probe.doc "first"; Probe.doc "second"])
              (λ p, Ok p) (λ _ _, 1%float))
           Probe.retriever "q" Probe.fresh _
           {| results := [Probe.doc "first"; Probe.doc "second"] |}).
  - reflexivity.
  - repeat constructor.
Defined.

(** C10: in the unguarded pipeline [retrieve_context] returns what the
    retriever returns (the same list or the same exception) and leaves the
    outside world as the retriever leaves it; the orchestrator adds nothing
    but the call record. *)
Theorem retrieve_context_is_retrieve {Session World}
    (svc : Services Session World) (self : RAG_from_scratch.t)
    (q : string) (st : Recorder World) :
  (RAG_from_scratch.retrieve_context svc self q st).1
    = (retrieve svc (RAG_from_scratch.retriever self) q (world st)).1
  /\ world (RAG_from_scratch.retrieve_context svc self q st).2
    = (retrieve svc (RAG_from_scratch.retriever self) q (world st)).2.
Proof.
  unfold RAG_from_scratch.retrieve_context.
  erewrite run_instrument by apply run_external.
  split; reflexivity.
Qed.

(** ** The guardrail *)

Lemma retained_cons (threshold : float) p (P : list string) s (scores : list float) :
  retained threshold (p :: P) (s :: scores) =
  if PrimFloat.leb threshold s then p :: retained threshold P scores
  else retained threshold P scores.
Proof.
  unfold retained. cbn [zip zip_with]. rewrite filter_cons. cbn [snd].
  destruct (PrimFloat.leb threshold s); case_decide; try congruence; reflexivity.
Qed.

Lemma scored_length {World} (feedback : string -> string -> ST World float) q P w scores w' :
  scored feedback q P w scores w' -> length scores = length P.
Proof. induction 1; cbn; congruence. Qed.

(** Scoring in the model is [mapM] of the feedback function over the
    passages. *)
Lemma mapM_scored {World} (feedback : string -> string -> ST World float) q P w scores w' :
  mapM (feedback q) P w = (Ok scores, w') <-> scored feedback q P w scores w'.
Proof.
  split.
  - revert w scores w'. induction P as [|p P IH]; intros w scores w' H.
    + cbn in H. injection H as <- <-. constructor.
    + rewrite run_mapM_cons in H.
      destruct (feedback q p w) as [[s|e] w1] eqn:Hp; [|discriminate].
      destruct (mapM (feedback q) P w1) as [[k|e] w2] eqn:HP; [|discriminate].
      injection H as <- <-. econstructor; eauto.
  - induction 1 as [|p P s scores w w1 w2 Hp _ IH]; [reflexivity|].
    rewrite run_mapM_cons, Hp, IH. reflexivity.
Qed.

Lemma retained_sublist (threshold : float) (P : list string) (scores : list float) :
  retained threshold P scores `sublist_of` P.
Proof.
  revert scores. induction P as [|p P IH]; intros [|s scores];
    try (cbn; apply sublist_nil_l).
  rewrite retained_cons. destruct (PrimFloat.leb threshold s).
  - apply sublist_skip, IH.
  - apply sublist_cons, IH.
Qed.

Lemma retained_elem_of (threshold : float) (P : list string) (scores : list float) p :
  p ∈ retained threshold P scores <->
  exists (i : nat) (s : float),
    P !! i = Some p /\ scores !! i = Some s /\ PrimFloat.leb threshold s = true.
Proof.
  revert scores. induction P as [|p0 P IH]; intros [|s0 scores].
  - cbn. split; [intros H; inversion H | intros (i & s & H & _); destruct i; discriminate].
  - cbn. split; [intros H; inversion H | intros (i & s & H & _); destruct i; discriminate].
  - cbn. split; [intros H; inversion H | intros (i & s & _ & H & _); destruct i; discriminate].
  - rewrite retained_cons. destruct (PrimFloat.leb threshold s0) eqn:Hs0.
    + rewrite elem_of_cons, IH. split.
      * intros [-> | (i & s & H1 & H2 & H3)].
        -- exists 0%nat, s0. auto.
        -- exists (S i), s. auto.
      * intros ([|i] & s & H1 & H2 & H3); cbn in H1, H2.
        -- left. congruence.
        -- right. eauto.
    + rewrite IH. split.
      * intros (i & s & H1 & H2 & H3). exists (S i), s. auto.
      * intros ([|i] & s & H1 & H2 & H3); cbn in H1, H2.
        -- congruence.
        -- eauto.
Qed.

Lemma retained_none (threshold : float) (P : list string) (scores : list float) :
  Forall (λ s, PrimFloat.leb threshold s = false) scores ->
  retained threshold P scores = [].
Proof.
  revert scores. induction P as [|p P IH]; intros [|s scores] H; try reflexivity.
  rewrite retained_cons. inversion H as [|? ? Hs Hrest]; subst.
  rewrite Hs. now apply IH.
Qed.

Lemma retained_all (threshold : float) (P : list string) (scores : list float) :
  length scores = length P ->
  Forall (λ s, PrimFloat.leb threshold s = true) scores ->
  retained threshold P scores = P.
Proof.
  revert scores. induction P as [|p P IH]; intros [|s scores] Hlen H;
    try reflexivity; try discriminate.
  rewrite retained_cons. inversion H as [|? ? Hs Hrest]; subst.
  rewrite Hs. f_equal. apply IH; [cbn in Hlen; congruence | assumption].
Qed.

(** The filter, once the wrapped step has returned and the passages are
    scored. *)
Lemma context_filter_scored {World} (feedback : string -> string -> ST World float)
    threshold (func : string -> ST World (list string)) q w P w1 scores w2 :
  func q w = (Ok P, w1) ->
  scored feedback q P w1 scores w2 ->
  context_filter feedback threshold func q w = (Ok (retained threshold P scores), w2).
Proof.
  intros Hf Hs. apply mapM_scored in Hs. unfold context_filter.
  rewrite (run_bind_ok _ _ _ _ _ Hf), (run_bind_ok _ _ _ _ _ Hs). reflexivity.
Qed.

(** C1: in the guarded pipeline, when the retriever has returned the
    passages [P] and each of them has been scored on (query, passage),
    [retrieve_context] returns, and records as its output, the passages whose
    score is at least 0.75: a subsequence of [P] in the original order,
    holding exactly the passages at the positions with a qualifying score,
    and the empty list when no score qualifies. *)
Theorem guardrail_keeps_passages_at_threshold {Session World}
    (svc : Services Session World) (self : filtered_RAG_from_scratch.t)
    (q : string) (st : Recorder World) (P : list string) (w1 : World)
    (scores : list float) (w2 : World) :
  retrieve svc (filtered_RAG_from_scratch.retriever self) q (world st) = (Ok P, w1) ->
  scored (context_relevance svc) q P w1 scores w2 ->
  let kept := retained 0.75%float P scores in
  filtered_RAG_from_scratch.retrieve_context svc self q st =
    (Ok kept,
     {| world := w2;
        calls := calls st ++
          [mkCallRecord "retrieve_context" [("query"%string, VStr q)]
             (Returned (VList kept)) []] |})
  /\ kept `sublist_of` P
  /\ (forall p, p ∈ kept <->
        exists (i : nat) (s : float),
          P !! i = Some p /\ scores !! i = Some s /\ PrimFloat.leb 0.75%float s = true)
  /\ (Forall (λ s, PrimFloat.leb 0.75%float s = false) scores -> kept = []).
Proof.
  intros Hr Hs kept. repeat split.
  - assert (Hbody : filtered_RAG_from_scratch.retrieve_context_body svc self q (world st)
                    = (Ok P, w1)).
    { unfold filtered_RAG_from_scratch.retrieve_context_body.
      now rewrite (run_bind_ok _ _ _ _ _ Hr). }
    unfold filtered_RAG_from_scratch.retrieve_context.
    erewrite run_instrument; cycle 1.
    { rewrite run_external. cbn [world calls].
      now rewrite (context_filter_scored _ 0.75%float _ _ _ _ _ _ _ Hbody Hs). }
    reflexivity.
  - apply retained_sublist.
  - apply retained_elem_of.
  - apply retained_elem_of.
  - apply retained_none.
Qed.

Lemma guardrail_keeps_passages_at_threshold_witness :
  (filtered_RAG_from_scratch.retrieve_context Probe.demo Probe.filtered_rag
     "How do I launch a streamlit app?" Probe.start).1
  = Ok ["p1"; "p2"]%string.
Proof.
  edestruct (guardrail_keeps_passages_at_threshold Probe.demo Probe.filtered_rag
               "How do I launch a streamlit app?" Probe.start) as [H _].
  - reflexivity.
  - repeat (econstructor; [reflexivity|]). constructor.
  - rewrite H. reflexivity.
Defined.

Lemma scored_total {World} (feedback : string -> string -> ST World float) q
    (good : float -> Prop) :
  (forall p w, exists s w', feedback q p w = (Ok s, w') /\ good s) ->
  forall P w, exists scores w', scored feedback q P w scores w' /\ Forall good scores.
Proof.
  intros Hf. induction P as [|p P IH]; intros w.
  - exists [], w. split; constructor.
  - destruct (Hf p w) as (s & w1 & Hp & Hs).
    destruct (IH w1) as (scores & w2 & HP & Hall).
    exists (s :: scores), w2. split; [econstructor; eauto | now constructor].
Qed.

(** C6: with threshold 0 and a feedback function whose scores are all
    non-negative, the guardrail returns the very list the wrapped step
    returned: no passage is discarded. *)
Theorem context_filter_zero_threshold_identity {World}
    (feedback : string -> string -> ST World float)
    (func : string -> ST World (list string)) (q : string) (w : World)
    (P : list string) (w1 : World) :
  func q w = (Ok P, w1) ->
  (forall p w', exists s w'',
      feedback q p w' = (Ok s, w'') /\ PrimFloat.leb 0%float s = true) ->
  (context_filter feedback 0%float func q w).1 = Ok P.
Proof.
  intros Hf Hnonneg.
  destruct (scored_total feedback q _ Hnonneg P w1) as (scores & w2 & Hs & Hall).
  rewrite (context_filter_scored _ 0%float _ _ _ _ _ _ _ Hf Hs). cbn [fst].
  f_equal. apply retained_all; [eapply scored_length; eauto | assumption].
Qed.

Lemma context_filter_zero_threshold_identity_witness :
  (context_filter (context_relevance Probe.demo) 0%float
     (retrieve Probe.demo Probe.retriever) "q" Probe.fresh).1
  = Ok ["p1"; "p2"; "p3"; "p4"]%string.
Proof.
  apply (context_filter_zero_threshold_identity (context_relevance Probe.demo)
           (retrieve Probe.demo Probe.retriever) "q" Probe.fresh
           ["p1"; "p2"; "p3"; "p4"]%string
           {| Probe.searched := ["q"%string]; Probe.completed := [];
              Probe.judged := [] |}).
  - reflexivity.
  - intros p w'. eexists _, _. split; [reflexivity|].
    unfold Probe.judge.
    repeat (match goal with |- context [String.eqb ?a ?b] => destruct (String.eqb a b) end);
      reflexivity.
Defined.

(** ** Generation *)

(** C9: in the guarded pipeline the completion does not depend on the
    context: for any two context lists, [generate_completion] returns the
    same result and leaves the outside world in the same state, which are
    those of [Complete] on the query alone. *)
Theorem filtered_generate_completion_ignores_context {Session World}
    (svc : Services Session World) (self : filtered_RAG_from_scratch.t)
    (q : string) (c1 c2 : list string) (st : Recorder World) :
  (filtered_RAG_from_scratch.generate_completion svc self q c1 st).1
    = (filtered_RAG_from_scratch.generate_completion svc self q c2 st).1
  /\ world (filtered_RAG_from_scratch.generate_completion svc self q c1 st).2
    = world (filtered_RAG_from_scratch.generate_completion svc self q c2 st).2
  /\ (filtered_RAG_from_scratch.generate_completion svc self q c1 st).1
    = (Complete svc "mistral-large" q (world st)).1.
Proof.
  unfold filtered_RAG_from_scratch.generate_completion, instrument.
  cbn [world calls].
  unfold mbind, ST_bind, st_bind. rewrite run_external. cbn [world calls fst snd].
  destruct (Complete svc "mistral-large" q (world st)) as [[s|e] w'];
    cbn; repeat split; reflexivity.
Qed.

Lemma string_app_assoc (a b c : string) : (a +:+ b) +:+ c = a +:+ b +:+ c.
Proof.
  induction a as [|x a IH]; [reflexivity|].
  change (String x ((a +:+ b) +:+ c) = String x (a +:+ b +:+ c)). now rewrite IH.
Qed.

Lemma string_app_length (a b : string) :
  String.length (a +:+ b) = (String.length a + String.length b)%nat.
Proof.
  induction a as [|x a IH]; [reflexivity|].
  change (S (String.length (a +:+ b)) = S (String.length a + String.length b)).
  now rewrite IH.
Qed.

Lemma embeds_length (s t : string) :
  embeds s t -> (String.length s <= String.length t)%nat.
Proof.
  intros (before & after & ->). rewrite !string_app_length. apply Nat.le_trans with
    (String.length s + String.length after)%nat; [apply Nat.le_add_r | apply Nat.le_add_l].
Qed.

(** The unguarded [generate_completion]: one call of [Complete] on the
    prompt, and one record with the query and the context as inputs. *)
Lemma unguarded_generate_completion_run {Session World}
    (svc : Services Session World) (py_repr : string -> string)
    (self : RAG_from_scratch.t) (q : string) (ctx : list string)
    (st : Recorder World) :
  let done := Complete svc "mistral-large" (RAG_from_scratch.prompt py_repr q ctx)
                (world st) in
  RAG_from_scratch.generate_completion svc py_repr self q ctx st =
  (done.1,
   {| world := done.2;
      calls := calls st ++
        [mkCallRecord "generate_completion"
           [("query"%string, VStr q); ("context_str"%string, VList ctx)]
           (outcome_of VStr done.1) []] |}).
Proof.
  intros done. unfold RAG_from_scratch.generate_completion.
  erewrite run_instrument by apply run_external. reflexivity.
Qed.

Lemma embeds_here (s after : string) : embeds s (s +:+ after).
Proof. now exists ""%string, after. Qed.

Lemma embeds_skip (s a rest : string) : embeds s rest -> embeds s (a +:+ rest).
Proof.
  intros (before & after & ->). exists (a +:+ before), after.
  now rewrite string_app_assoc.
Qed.

(** The prompt of the unguarded pipeline contains the query and the text of
    the context list. *)
Lemma unguarded_prompt_embeds (py_repr : string -> string) (q : string)
    (ctx : list string) :
  embeds q (RAG_from_scratch.prompt py_repr q ctx)
  /\ embeds (str_of_list py_repr ctx) (RAG_from_scratch.prompt py_repr q ctx).
Proof.
  unfold RAG_from_scratch.prompt.
  split; repeat first [apply embeds_here | apply embeds_skip].
Qed.

(** C2: the guarded pipeline's [generate_completion], called with a query
    and a retained passage, sends the query alone to [Complete]: the one
    prompt the completion service receives is the query, and the passage does
    not occur in it.  (The unguarded pipeline embeds both, see
    [unguarded_prompt_embeds].) *)
Theorem filtered_generate_completion_sends_query_only :
  let q := "How do I launch a streamlit app?"%string in
  let passage := "Use the command streamlit run app.py from a terminal."%string in
  Probe.completed
    (world (filtered_RAG_from_scratch.generate_completion Probe.demo
              Probe.filtered_rag q [passage] Probe.start).2)
    = [("mistral-large"%string, q)]
  /\ ~ embeds passage q.
Proof.
  split; [reflexivity|].
  intros H%embeds_length. vm_compute in H. lia.
Qed.

(** ** The record tree of a query *)

Lemma unguarded_retrieve_context_run {Session World}
    (svc : Services Session World) (self : RAG_from_scratch.t) (q : string)
    (st : Recorder World) :
  let found := retrieve svc (RAG_from_scratch.retriever self) q (world st) in
  RAG_from_scratch.retrieve_context svc self q st =
  (found.1,
   {| world := found.2;
      calls := calls st ++
        [mkCallRecord "retrieve_context" [("query"%string, VStr q)]
           (outcome_of VList found.1) []] |}).
Proof.
  intros found. unfold RAG_from_scratch.retrieve_context.
  erewrite run_instrument by apply run_external. reflexivity.
Qed.

(** C3 (amended): in a run of [query] in which the retrieval step returns,
    the record appended for the run is rooted at [query] and has exactly two
    children, the [retrieve_context] record and then the
    [generate_completion] record; the output of the first, the retrieved
    list, is the [context_str] input of the second. *)
Theorem query_record_children_in_invocation_order {Session World}
    (svc : Services Session World) (py_repr : string -> string)
    (self : RAG_from_scratch.t) (q : string) (st : Recorder World)
    (ctx : list string) (w1 : World) :
  retrieve svc (RAG_from_scratch.retriever self) q (world st) = (Ok ctx, w1) ->
  exists root,
    calls (RAG_from_scratch.query svc py_repr self q st).2 = calls st ++ [root]
    /\ retrieve_then_generate root (VList ctx).
Proof.
  intros Hr.
  pose proof (unguarded_retrieve_context_run svc self q
                {| world := world st; calls := [] |}) as Hrc.
  cbn [world calls] in Hrc. rewrite Hr in Hrc. cbn [fst snd outcome_of] in Hrc.
  unfold RAG_from_scratch.query.
  erewrite run_instrument; cycle 1.
  { rewrite (run_bind_ok _ _ _ _ _ Hrc).
    apply unguarded_generate_completion_run. }
  cbn [world calls snd app].
  eexists. split; [reflexivity|].
  eexists _, _. repeat split.
Qed.

(** When the retriever raises, [query] raises the same exception without
    calling [generate_completion]: the root then has the error-marked
    [retrieve_context] record as its only child. *)
Lemma query_reraises_retrieval_failure {Session World}
    (svc : Services Session World) (py_repr : string -> string)
    (self : RAG_from_scratch.t) (q : string) (st : Recorder World)
    (e : exn) (w1 : World) :
  retrieve svc (RAG_from_scratch.retriever self) q (world st) = (Raise e, w1) ->
  RAG_from_scratch.query svc py_repr self q st =
  (Raise e,
   {| world := w1;
      calls := calls st ++
        [mkCallRecord "query" [("query"%string, VStr q)] (Failed e)
           [mkCallRecord "retrieve_context" [("query"%string, VStr q)]
              (Failed e) []]] |}).
Proof.
  intros Hr.
  pose proof (unguarded_retrieve_context_run svc self q
                {| world := world st; calls := [] |}) as Hrc.
  cbn [world calls] in Hrc. rewrite Hr in Hrc. cbn [fst snd outcome_of app] in Hrc.
  unfold RAG_from_scratch.query.
  erewrite run_instrument by (apply run_bind_raise; exact Hrc).
  reflexivity.
Qed.

Lemma query_record_children_in_invocation_order_witness :
  exists root,
    calls (RAG_from_scratch.query Probe.demo Probe.quote Probe.rag
             "How do I launch a streamlit app?" Probe.start).2 = [] ++ [root]
    /\ retrieve_then_generate root (VList ["p1"; "p2"; "p3"; "p4"]%string).
Proof.
  apply (query_record_children_in_invocation_order Probe.demo Probe.quote Probe.rag
           "How do I launch a streamlit app?" Probe.start
           ["p1"; "p2"; "p3"; "p4"]%string
           {| Probe.searched := ["How do I launch a streamlit app?"%string];
              Probe.completed := []; Probe.judged := [] |}).
  reflexivity.
Defined.

(** C3 (as stated) fails: in the run of [query] on a query for which the
    search service is down, the record of the run does not have the two
    children; its root has one child, the failed [retrieve_context]. *)
Lemma failed_retrieval_leaves_one_child :
  exists root,
    calls (RAG_from_scratch.query Probe.demo Probe.quote Probe.rag "down"
             Probe.start).2 = [root]
    /\ length (children root) = 1%nat
    /\ ~ exists ctx, retrieve_then_generate root ctx.
Proof.
  eexists. split; [reflexivity|]. split; [reflexivity|].
  intros (ctx & first & second & _ & Hchildren & _). discriminate Hchildren.
Qed.

(** ** Empty context *)

(** C4 (amended): when the search service returns no passages, the
    retriever returns the empty list, the guardrail returns the empty list,
    and [query] calls [generate_completion] with the empty context and
    returns what [Complete] returns for the query: a string whenever the
    completion service gives one, its exception otherwise.  Nothing raises
    because the context is empty. *)
Theorem empty_retrieval_still_answers {Session World}
    (svc : Services Session World) (self : filtered_RAG_from_scratch.t)
    (q : string) (st : Recorder World) (w1 : World) :
  cortex_search svc (_session (filtered_RAG_from_scratch.retriever self)) q
    ["doc_text"%string] (_limit_to_retrieve (filtered_RAG_from_scratch.retriever self))
    (world st) = (Ok {| results := [] |}, w1) ->
  retrieve svc (filtered_RAG_from_scratch.retriever self) q (world st) = (Ok [], w1)
  /\ context_filter (context_relevance svc) 0.75%float
       (filtered_RAG_from_scratch.retrieve_context_body svc self) q (world st)
     = (Ok [], w1)
  /\ (let done := Complete svc "mistral-large" q w1 in
      filtered_RAG_from_scratch.query svc self q st =
      (done.1,
       {| world := done.2;
          calls := calls st ++
            [mkCallRecord "query" [("query"%string, VStr q)] (outcome_of VStr done.1)
               [mkCallRecord "retrieve_context" [("query"%string, VStr q)]
                  (Returned (VList [])) [];
                mkCallRecord "generate_completion"
                  [("query"%string, VStr q); ("context_str"%string, VList [])]
                  (outcome_of VStr done.1) []]] |}))
  /\ (forall s w2, Complete svc "mistral-large" q w1 = (Ok s, w2) ->
        (filtered_RAG_from_scratch.query svc self q st).1 = Ok s).
Proof.
  intros Hs.
  assert (Hr : retrieve svc (filtered_RAG_from_scratch.retriever self) q (world st)
               = (Ok [], w1)).
  { now rewrite (retrieve_after_search _ _ _ _ _ _ Hs). }
  assert (Hf : context_filter (context_relevance svc) 0.75%float
                 (filtered_RAG_from_scratch.retrieve_context_body svc self) q (world st)
               = (Ok [], w1)).
  { apply (context_filter_scored _ _ _ _ _ [] w1 [] w1); [|constructor].
    unfold filtered_RAG_from_scratch.retrieve_context_body.
    now rewrite (run_bind_ok _ _ _ _ _ Hr). }
  assert (Hq : let done := Complete svc "mistral-large" q w1 in
      filtered_RAG_from_scratch.query svc self q st =
      (done.1,
       {| world := done.2;
          calls := calls st ++
            [mkCallRecord "query" [("query"%string, VStr q)] (outcome_of VStr done.1)
               [mkCallRecord "retrieve_context" [("query"%string, VStr q)]
                  (Returned (VList [])) [];
                mkCallRecord "generate_completion"
                  [("query"%string, VStr q); ("context_str"%string, VList [])]
                  (outcome_of VStr done.1) []]] |})).
  { intros done. unfold filtered_RAG_from_scratch.query.
    unfold instrument at 1. cbn [world calls].
    unfold mbind at 1, ST_bind, st_bind.
    unfold filtered_RAG_from_scratch.retrieve_context.
    erewrite run_instrument; cycle 1.
    { rewrite run_external. cbn [world calls]. rewrite Hf. reflexivity. }
    cbn [world calls fst snd outcome_of app].
    unfold mbind at 1, ST_bind, st_bind.
    unfold filtered_RAG_from_scratch.generate_completion.
    unfold instrument. cbn [world calls].
    unfold mbind, ST_bind, st_bind. rewrite run_external. cbn [world calls].
    subst done. destruct (Complete svc "mistral-large" q w1) as [[s|e] w2];
      reflexivity. }
  repeat split; try assumption.
  intros s w2 Hc. cbv zeta in Hq. rewrite Hq, Hc. reflexivity.
Qed.

Lemma empty_retrieval_still_answers_witness :
  (filtered_RAG_from_scratch.query Probe.demo Probe.filtered_rag "nothing"
     Probe.start).1 = Ok "answer to nothing"%string.
Proof.
  eapply (empty_retrieval_still_answers Probe.demo Probe.filtered_rag "nothing"
            Probe.start).
  - reflexivity.
  - reflexivity.
Defined.

(** C4 (as stated) fails: the search service returns no passages for the
    query, the completion service is down, and [query] raises
    [UpstreamUnavailable] instead of returning a string. *)
Lemma empty_retrieval_generator_down :
  (cortex_search Probe.unanswered tt "nothing" ["doc_text"%string] 4 Probe.fresh).1
    = Ok {| results := [] |}
  /\ (filtered_RAG_from_scratch.query Probe.unanswered Probe.filtered_rag "nothing"
        Probe.start).1 = Raise UpstreamUnavailable
  /\ ~ exists s : string,
        (filtered_RAG_from_scratch.query Probe.unanswered Probe.filtered_rag
           "nothing" Probe.start).1 = Ok s.
Proof.
  split; [reflexivity|]. split; [reflexivity|].
  intros (s & Hs). discriminate Hs.
Qed.

(** ** The recording loop *)

(** Every call of the unguarded [query] appends one record to the
    recording: the root of its tree, marked with the result of the call. *)
Lemma query_appends_one_record {Session World}
    (svc : Services Session World) (py_repr : string -> string)
    (self : RAG_from_scratch.t) (q : string) (st : Recorder World) :
  exists subcalls,
    calls (RAG_from_scratch.query svc py_repr self q st).2 =
    calls st ++
      [mkCallRecord "query" [("query"%string, VStr q)]
         (outcome_of VStr (RAG_from_scratch.query svc py_repr self q st).1) subcalls].
Proof.
  unfold RAG_from_scratch.query. unfold instrument at 1 2.
  destruct ((RAG_from_scratch.retrieve_context svc self q
               ≫= RAG_from_scratch.generate_completion svc py_repr self q)
              {| world := world st; calls := [] |}) as [r st'].
  now exists (calls st').
Qed.

Lemma filter_all {A} (P : A -> Prop) `{forall x, Decision (P x)} (l : list A) :
  Forall P l -> filter P l = l.
Proof.
  induction 1 as [|x l Hx _ IH]; [reflexivity|].
  rewrite filter_cons, IH. now rewrite decide_True.
Qed.

Lemma recording_loop_cons {World} (query : string -> ST (Recorder World) string)
    (p : string) (rest : list string) (st : Recorder World) :
  recording_loop query (p :: rest) st =
  match query p st with
  | (Ok _, st1) => recording_loop query rest st1
  | (Raise e, st1) => (Raise e, st1)
  end.
Proof. reflexivity. Qed.

(** The loop over a batch in which the queries before [k] return and [k]
    raises: the exception of [k] ends the loop, whatever follows [k]; the
    recording gains one successful record per query before [k] and one error
    record for [k]. *)
Lemma recording_loop_stops {World} (query : string -> ST (Recorder World) string)
    (e : exn) (k : string) (after : list string) :
  (forall p st, exists subcalls,
      calls (query p st).2 =
      calls st ++ [mkCallRecord "query" [("query"%string, VStr p)]
                     (outcome_of VStr (query p st).1) subcalls]) ->
  forall (before : list string) (st st1 : Recorder World),
    all_return query before st st1 ->
    (query k st1).1 = Raise e ->
    recording_loop query (before ++ k :: after) st = (Raise e, (query k st1).2)
    /\ exists trees failed,
         calls (query k st1).2 = calls st ++ trees ++ [failed]
         /\ Forall (λ c, succeeded c = true) trees
         /\ map inputs trees = map (λ p, [("query"%string, VStr p)]) before
         /\ succeeded failed = false
         /\ inputs failed = [("query"%string, VStr k)].
Proof.
  intros Hone before st st1 Hbefore Hk.
  induction Hbefore as [st|p before a st st1 st2 Hp _ IH].
  - cbn [app]. rewrite recording_loop_cons.
    destruct (Hone k st) as (sub & Hcalls).
    destruct (query k st) as [r st']. cbn [fst snd] in *. subst r.
    split; [reflexivity|]. eexists [], _. cbn [app].
    split; [exact Hcalls|]. repeat split; constructor.
  - cbn [app]. rewrite recording_loop_cons, Hp.
    destruct (Hone p st) as (sub & Hcalls). rewrite Hp in Hcalls.
    cbn [fst snd outcome_of] in Hcalls.
    destruct (IH Hk) as (Heq & trees & failed & Hc & Hok & Hin & Hf & Hfin).
    split; [exact Heq|].
    eexists (_ :: trees), failed. rewrite Hc, Hcalls, <- app_assoc. cbn [app].
    split; [reflexivity|]. repeat split; try assumption.
    + constructor; [reflexivity | assumption].
    + cbn [map]. now rewrite Hin.
Qed.

(** C7 (amended): in a batch in which the queries before query [k] return
    and query [k] then raises [UpstreamUnavailable], the loop ends with that
    exception at [k]: the queries after [k] are not run (the outcome is that
    of the batch cut after [k]), the recording holds one successful tree per
    query before [k] followed by one error record for [k], and the
    leaderboard aggregates over the successful trees only. *)
Theorem recording_loop_aborts_at_first_failure {Session World}
    (svc : Services Session World) (py_repr : string -> string)
    (self : RAG_from_scratch.t) (before : list string) (k : string)
    (after : list string) (w : World) (st1 : Recorder World) :
  let query := RAG_from_scratch.query svc py_repr self in
  all_return query before {| world := w; calls := [] |} st1 ->
  (query k st1).1 = Raise UpstreamUnavailable ->
  record_batch query (before ++ k :: after) w = record_batch query (before ++ [k]) w
  /\ (record_batch query (before ++ k :: after) w).1 = Raise UpstreamUnavailable
  /\ world (record_batch query (before ++ k :: after) w).2 = world (query k st1).2
  /\ exists trees failed,
       calls (record_batch query (before ++ k :: after) w).2 = trees ++ [failed]
       /\ length trees = length before
       /\ Forall (λ c, succeeded c = true) trees
       /\ map inputs trees = map (λ p, [("query"%string, VStr p)]) before
       /\ succeeded failed = false
       /\ inputs failed = [("query"%string, VStr k)]
       /\ scored_invocations (trees ++ [failed]) = trees.
Proof.
  intros query Hbefore Hk. unfold record_batch.
  destruct (recording_loop_stops query UpstreamUnavailable k after
              (query_appends_one_record svc py_repr self) before _ _ Hbefore Hk)
    as (Heq & trees & failed & Hc & Hok & Hin & Hf & Hfin).
  destruct (recording_loop_stops query UpstreamUnavailable k []
              (query_appends_one_record svc py_repr self) before _ _ Hbefore Hk)
    as (Heq' & _).
  rewrite Heq, Heq'. cbn [fst snd calls app] in *.
  repeat split.
  exists trees, failed. repeat split; try assumption.
  - rewrite <- (length_map inputs), Hin. apply length_map.
  - unfold scored_invocations. rewrite filter_app, filter_all by assumption.
    rewrite filter_cons, decide_False by (rewrite Hf; discriminate).
    cbn. apply app_nil_r.
Qed.

Lemma recording_loop_aborts_at_first_failure_witness :
  (record_batch (RAG_from_scratch.query Probe.demo Probe.quote Probe.rag)
     (["How do I install streamlit?"%string]
        ++ "down"%string :: ["How do I add a logo to streamlit?"%string])
     Probe.fresh).1 = Raise UpstreamUnavailable.
Proof.
  eapply (recording_loop_aborts_at_first_failure Probe.demo Probe.quote Probe.rag
            ["How do I install streamlit?"%string] "down"
            ["How do I add a logo to streamlit?"%string] Probe.fresh).
  - econstructor; [reflexivity | constructor].
  - reflexivity.
Defined.

(** C7 (as stated) fails: in a batch of three queries whose second query
    raises [UpstreamUnavailable] while the other two always return, the
    recording does not hold two successful trees and one error record; the
    third query is never run. *)
Lemma failing_query_aborts_batch :
  let query := RAG_from_scratch.query Probe.demo Probe.quote Probe.rag in
  always_returns query "How do I install streamlit?"
  /\ always_raises query UpstreamUnavailable "down"
  /\ always_returns query "How do I add a logo to streamlit?"
  /\ ~ isolates_failure query
        ["How do I install streamlit?"; "down";
         "How do I add a logo to streamlit?"]%string Probe.fresh.
Proof.
  repeat split; try (intros st; reflexivity).
  intros [Hok _]. vm_compute in Hok. discriminate.
Qed.

(** ** Feedback evaluation *)

(** Scoring a list of argument pairs with a deterministic evaluator gives
    the same scores, or the same exception, from any two states of the
    world. *)
Lemma mapM_deterministic {World A} (f : A -> ST World float) (l : list A) :
  (forall x w1 w2, (f x w1).1 = (f x w2).1) ->
  forall w1 w2, (mapM f l w1).1 = (mapM f l w2).1.
Proof.
  intros Hf. induction l as [|x l IH]; intros w1 w2; [reflexivity|].
  rewrite !run_mapM_cons. specialize (Hf x w1 w2).
  destruct (f x w1) as [[y1|e1] w1'], (f x w2) as [[y2|e2] w2'];
    cbn [fst] in Hf; try discriminate; [|now injection Hf as ->].
  injection Hf as ->. specialize (IH w1' w2').
  destruct (mapM f l w1') as [[k1|e1] w1''], (mapM f l w2') as [[k2|e2] w2''];
    cbn [fst] in IH |- *; congruence.
Qed.

Lemma found_ok (values selected : list string) :
  found values = Ok selected -> selected = values /\ selected <> [].
Proof. destruct values; [discriminate|]. intros [= <-]. now split. Qed.

Lemma found_raise (values : list string) (e : exn) :
  found values = Raise e -> e = SelectionNotFound.
Proof. destruct values; [|discriminate]. now intros [= <-]. Qed.

(** A selection never yields an empty list of values, and fails in one way
    only. *)
Lemma select_ok (sel : selector) (tree : CallRecord) (values : list string) :
  select sel tree = Ok values -> values <> [].
Proof.
  destruct sel; cbn [select].
  - destruct (inputs tree) as [|[k v] rest]; [discriminate|]. apply found_ok.
  - apply found_ok.
  - apply found_ok.
Qed.

Lemma select_raise (sel : selector) (tree : CallRecord) (e : exn) :
  select sel tree = Raise e -> e = SelectionNotFound.
Proof.
  destruct sel; cbn [select].
  - destruct (inputs tree) as [|[k v] rest]; [now intros [= <-]|]. apply found_raise.
  - apply found_raise.
  - apply found_raise.
Qed.

(** The scores a deterministic evaluator gives in a run are the scores it
    gives in every state of the world. *)
Lemma mapM_deterministic_scores {World A} (f : A -> ST World float) (l : list A) :
  (forall x w1 w2, (f x w1).1 = (f x w2).1) ->
  forall w scores, (mapM f l w).1 = Ok scores ->
    Forall2 (λ x s, forall w', (f x w').1 = Ok s) l scores.
Proof.
  intros Hf. induction l as [|x l IH]; intros w scores.
  - intros [= <-]. constructor.
  - rewrite run_mapM_cons. destruct (f x w) as [[y|e] w1] eqn:Hx; [|discriminate].
    specialize (IH w1).
    destruct (mapM f l w1) as [[k|e] w2]; [|discriminate].
    intros [= <-]. constructor; [|now apply IH].
    intros w'. rewrite (Hf x w' w), Hx. reflexivity.
Qed.

(** C8 (amended): for a feedback spec whose evaluator is a deterministic
    scoring function, evaluating the spec on a record tree gives the same
    result (the same feedback result, or the same failure) whatever the state
    of the world, so a second evaluation returns what the first returned.
    The result is a function of the spec and the tree: it carries the name of
    the spec and the evaluator's scores of all pairs of selected values, one
    score as it is, several aggregated, and it is [SelectionNotFound] when a
    selection matches no data. *)
Theorem evaluate_twice_same_result {World} (spec : FeedbackSpec World)
    (tree : CallRecord) :
  deterministic (fs_evaluator spec) ->
  (forall w1 w2, (evaluate spec tree w1).1 = (evaluate spec tree w2).1)
  /\ (forall w, (evaluate spec tree (evaluate spec tree w).2).1
               = (evaluate spec tree w).1)
  /\ (forall w r, (evaluate spec tree w).1 = Ok r ->
        fr_name r = fs_name spec
        /\ exists xs ys scores,
             select (fs_first spec) tree = Ok xs
             /\ select (fs_second spec) tree = Ok ys
             /\ Forall2 (λ (xy : string * string) s,
                           forall w', (fs_evaluator spec xy.1 xy.2 w').1 = Ok s)
                        (list_prod xs ys) scores
             /\ scores <> []
             /\ fr_score r = match scores with
                             | [s] => s
                             | _ => fs_aggregate spec scores
                             end)
  /\ (forall w,
        (forall xs, select (fs_first spec) tree <> Ok xs)
        \/ (forall ys, select (fs_second spec) tree <> Ok ys) ->
        (evaluate spec tree w).1 = Raise SelectionNotFound).
Proof.
  intros Hdet.
  assert (H : forall w1 w2, (evaluate spec tree w1).1 = (evaluate spec tree w2).1).
  { intros w1 w2. unfold evaluate, lift_result.
    unfold mbind at 1 4, ST_bind, st_bind.
    destruct (select (fs_first spec) tree) as [xs|e]; [|reflexivity].
    unfold mbind at 1 3, ST_bind, st_bind.
    destruct (select (fs_second spec) tree) as [ys|e]; [|reflexivity].
    unfold mbind, ST_bind, st_bind.
    pose proof (mapM_deterministic
                  (λ xy : string * string, fs_evaluator spec xy.1 xy.2)
                  (list_prod xs ys) (λ xy, Hdet xy.1 xy.2) w1 w2) as Hm.
    set (scoring := mapM (λ xy : string * string, fs_evaluator spec xy.1 xy.2)
                      (list_prod xs ys)) in *.
    destruct (scoring w1) as [[k1|e1] w1'], (scoring w2) as [[k2|e2] w2'];
      cbn [fst] in Hm |- *; try discriminate; now injection Hm as ->. }
  split; [exact H|]. split; [intros w; apply H|]. split.
  - intros w r. unfold evaluate, lift_result.
    unfold mbind at 1, ST_bind, st_bind.
    destruct (select (fs_first spec) tree) as [xs|e] eqn:Hxs; [|discriminate].
    unfold mbind at 1, ST_bind, st_bind.
    destruct (select (fs_second spec) tree) as [ys|e] eqn:Hys; [|discriminate].
    unfold mbind, ST_bind, st_bind.
    pose proof (mapM_deterministic_scores
                  (λ xy : string * string, fs_evaluator spec xy.1 xy.2)
                  (list_prod xs ys) (λ xy, Hdet xy.1 xy.2) w) as Hscores.
    set (scoring := mapM (λ xy : string * string, fs_evaluator spec xy.1 xy.2)
                      (list_prod xs ys)) in *.
    destruct (scoring w) as [[scores|e] w']; [|discriminate].
    intros [= <-]. split; [reflexivity|].
    specialize (Hscores scores eq_refl).
    exists xs, ys, scores. repeat split; try assumption; try reflexivity.
    intros ->. apply Forall2_nil_inv_r in Hscores.
    apply select_ok in Hxs, Hys.
    destruct xs as [|x xs]; [congruence|]. destruct ys as [|y ys]; [congruence|].
    discriminate Hscores.
  - intros w Hmissing. unfold evaluate, lift_result.
    unfold mbind at 1, ST_bind, st_bind.
    destruct (select (fs_first spec) tree) as [xs|e] eqn:Hxs.
    + unfold mbind at 1, ST_bind, st_bind.
      destruct (select (fs_second spec) tree) as [ys|e] eqn:Hys.
      * destruct Hmissing as [Hno | Hno]; [now destruct (Hno xs) | now destruct (Hno ys)].
      * apply select_raise in Hys as ->. reflexivity.
    + apply select_raise in Hxs as ->. reflexivity.
Qed.

Lemma evaluate_twice_same_result_witness :
  let tree :=
    mkCallRecord "query" [("query"%string, VStr "q")] (Returned (VStr "answer"))
      [mkCallRecord "retrieve_context" [("query"%string, VStr "q")]
         (Returned (VList ["p1"; "p2"]%string)) []] in
  let spec := f_context_relevance Probe.demo (λ scores, hd 0%float scores) in
  (evaluate spec tree Probe.fresh).1
  = Ok {| fr_name := "Context Relevance"; fr_score := 0.9%float |}
  /\ (evaluate spec tree (evaluate spec tree Probe.fresh).2).1
     = (evaluate spec tree Probe.fresh).1.
Proof.
  intros tree spec. split; [reflexivity|].
  apply (evaluate_twice_same_result spec tree).
  intros a b w1 w2. reflexivity.
Defined.

(** C8 (as stated) fails: [f_context_relevance] over a judge that does not
    repeat itself, evaluated twice on the same record tree, gives the score 1
    the first time and the score 0 the second time. *)
Lemma moody_judge_scores_twice_differently :
  let tree :=
    mkCallRecord "query" [("query"%string, VStr "q")] (Returned (VStr "answer"))
      [mkCallRecord "retrieve_context" [("query"%string, VStr "q")]
         (Returned (VList ["p1"%string])) []] in
  let spec := f_context_relevance Probe.moody (λ scores, hd 0%float scores) in
  let first := evaluate spec tree Probe.fresh in
  let second := evaluate spec tree first.2 in
  first.1 = Ok {| fr_name := "Context Relevance"; fr_score := 1%float |}
  /\ second.1 = Ok {| fr_name := "Context Relevance"; fr_score := 0%float |}
  /\ second.1 <> first.1.
Proof.
  split; [reflexivity|]. split; [reflexivity|].
  intros H.
  assert (Hleb : PrimFloat.leb 1%float 0%float = PrimFloat.leb 1%float 1%float).
  { change (PrimFloat.leb 1%float
              (match (evaluate
                        (f_context_relevance Probe.moody (λ scores, hd 0%float scores))
                        (mkCallRecord "query" [("query"%string, VStr "q")]
                           (Returned (VStr "answer"))
                           [mkCallRecord "retrieve_context"
                              [("query"%string, VStr "q")]
                              (Returned (VList ["p1"%string])) []])
                        (evaluate
                           (f_context_relevance Probe.moody (λ scores, hd 0%float scores))
                           (mkCallRecord "query" [("query"%string, VStr "q")]
                              (Returned (VStr "answer"))
                              [mkCallRecord "retrieve_context"
                                 [("query"%string, VStr "q")]
                                 (Returned (VList ["p1"%string])) []])
                           Probe.fresh).2).1 with
               | Ok r => fr_score r
               | Raise _ => 0%float
               end)
            = PrimFloat.leb 1%float 1%float).
    rewrite H. reflexivity. }
  vm_compute in Hleb. discriminate Hleb.
Qed.

(** * Further properties of the notebook's code *)

(** ** The retriever: failures *)

(** X1: when a row of the search response has no [doc_text] field, the
    comprehension raises [KeyError] for that key: no list is returned, not
    even the passages of the rows that have the field. *)
Theorem retrieve_row_without_doc_text {Session World}
    (svc : Services Session World) (self : CortexSearchRetriever Session)
    (q : string) (w w1 : World) (resp : SearchResponse) :
  cortex_search svc (_session self) q ["doc_text"%string] (_limit_to_retrieve self) w
    = (Ok resp, w1) ->
  Exists (λ curr : row, curr !! "doc_text"%string = None) (results resp) ->
  retrieve svc self q w = (Raise (KeyError "doc_text"), w1).
Proof.
  intros Hs Hmissing. rewrite (retrieve_after_search _ _ _ _ _ _ Hs).
  apply (mapM_None_2 (λ curr : row, curr !! "doc_text"%string)) in Hmissing.
  now rewrite Hmissing.
Qed.

Lemma retrieve_row_without_doc_text_witness :
  retrieve (Probe.services
              (λ _, Ok [Probe.doc "first"; {[ "title"%string := "second"%string ]}])
              (λ p, Ok p) (λ _ _, 1%float))
    Probe.retriever "q" Probe.fresh
  = (Raise (KeyError "doc_text"),
     {| Probe.searched := ["q"%string]; Probe.completed := []; Probe.judged := [] |}).
Proof.
  apply (retrieve_row_without_doc_text
           (Probe.services
              (λ _, Ok [Probe.doc "first"; {[ "title"%string := "second"%string ]}])
              (λ p, Ok p) (λ _ _, 1%float))
           Probe.retriever "q" Probe.fresh _
           {| results := [Probe.doc "first"; {[ "title"%string := "second"%string ]}] |}).
  - reflexivity.
  - apply Exists_cons_tl, Exists_cons_hd. reflexivity.
Defined.

(** X2: the retriever makes its one search call and nothing else to the
    outside world: in every case it leaves the world as that call leaves it
    (no retry, no second search), and an exception of the search is raised
    again unchanged. *)
Theorem retrieve_searches_once {Session World}
    (svc : Services Session World) (self : CortexSearchRetriever Session)
    (q : string) (w : World) :
  let search := cortex_search svc (_session self) q ["doc_text"%string]
                  (_limit_to_retrieve self) w in
  (retrieve svc self q w).2 = search.2
  /\ (forall e, search.1 = Raise e -> (retrieve svc self q w).1 = Raise e).
Proof.
  intros search. subst search.
  destruct (cortex_search svc (_session self) q ["doc_text"%string]
              (_limit_to_retrieve self) w) as [[resp|e] w1] eqn:Hs.
  - rewrite (retrieve_after_search _ _ _ _ _ _ Hs). split; [reflexivity|].
    intros e He. discriminate He.
  - unfold retrieve. rewrite (run_bind_raise _ _ _ _ _ Hs). split; [reflexivity|].
    intros e' He'. cbn [fst] in He' |- *. now injection He' as ->.
Qed.

(** ** The prompt *)

Lemma embeds_trans (a b c : string) : embeds a b -> embeds b c -> embeds a c.
Proof.
  intros (x & y & ->) (x' & y' & ->). exists (x' +:+ x), (y +:+ y').
  now rewrite !string_app_assoc.
Qed.

Lemma embeds_app_l (s a b : string) : embeds s a -> embeds s (a +:+ b).
Proof.
  intros (x & y & ->). exists x, (y +:+ b). now rewrite !string_app_assoc.
Qed.

Lemma string_app_nil_r (s : string) : s +:+ "" = s.
Proof.
  induction s as [|c s IH]; [reflexivity|].
  change (String c (s +:+ "") = String c s). now rewrite IH.
Qed.

Lemma embeds_refl (s : string) : embeds s s.
Proof.
  exists ""%string, ""%string.
  change (s = s +:+ ""). now rewrite string_app_nil_r.
Qed.

Lemma join_embeds (sep : string) (l : list string) (s : string) :
  s ∈ l -> embeds s (join sep l).
Proof.
  induction l as [|x l IH]; intros Hin; [inversion Hin|].
  apply elem_of_cons in Hin as [-> | Hin].
  - destruct l; [apply embeds_refl | apply embeds_here].
  - destruct l as [|y l]; [inversion Hin|].
    change (embeds s (x +:+ sep +:+ join sep (y :: l))).
    apply embeds_skip, embeds_skip, IH, Hin.
Qed.

(** X3: the prompt of the unguarded pipeline contains the [repr] of every
    passage of the context it is given. *)
Theorem prompt_embeds_every_passage (py_repr : string -> string) (q : string)
    (ctx : list string) (passage : string) :
  passage ∈ ctx ->
  embeds (py_repr passage) (RAG_from_scratch.prompt py_repr q ctx).
Proof.
  intros Hin.
  apply embeds_trans with (str_of_list py_repr ctx);
    [|apply unguarded_prompt_embeds].
  unfold str_of_list. apply embeds_skip, embeds_app_l, join_embeds.
  change (py_repr passage ∈ py_repr <$> ctx). now apply list_elem_of_fmap_2.
Qed.

Lemma prompt_embeds_every_passage_witness :
  embeds "'p2'"
    (RAG_from_scratch.prompt Probe.quote "How do I install streamlit?"
       ["p1"; "p2"]%string).
Proof.
  apply (prompt_embeds_every_passage Probe.quote "How do I install streamlit?"
           ["p1"; "p2"]%string "p2").
  apply list_elem_of_further, list_elem_of_here.
Defined.

(** ** The unguarded query *)

(** X4: when the retriever returns, the unguarded [query] returns what
    [Complete] returns for the model [mistral-large] and the prompt built
    from the query and the retrieved passages, called in the world the
    retrieval left; the outside world afterwards is the one that call
    leaves. *)
Theorem query_completes_prompt_of_retrieved {Session World}
    (svc : Services Session World) (py_repr : string -> string)
    (self : RAG_from_scratch.t) (q : string) (st : Recorder World)
    (ctx : list string) (w1 : World) :
  retrieve svc (RAG_from_scratch.retriever self) q (world st) = (Ok ctx, w1) ->
  let completion :=
    Complete svc "mistral-large" (RAG_from_scratch.prompt py_repr q ctx) w1 in
  (RAG_from_scratch.query svc py_repr self q st).1 = completion.1
  /\ world (RAG_from_scratch.query svc py_repr self q st).2 = completion.2.
Proof.
  intros Hr completion.
  pose proof (unguarded_retrieve_context_run svc self q
                {| world := world st; calls := [] |}) as Hrc.
  cbn [world calls] in Hrc. rewrite Hr in Hrc. cbn [fst snd outcome_of] in Hrc.
  unfold RAG_from_scratch.query.
  erewrite run_instrument; cycle 1.
  { rewrite (run_bind_ok _ _ _ _ _ Hrc).
    apply unguarded_generate_completion_run. }
  split; reflexivity.
Qed.

Lemma query_completes_prompt_of_retrieved_witness :
  (RAG_from_scratch.query Probe.demo Probe.quote Probe.rag
     "How do I install streamlit?" Probe.start).1
  = Ok ("answer to " +:+
        RAG_from_scratch.prompt Probe.quote "How do I install streamlit?"
          ["p1"; "p2"; "p3"; "p4"]%string).
Proof.
  eapply eq_trans.
  - eapply (query_completes_prompt_of_retrieved Probe.demo Probe.quote Probe.rag
              "How do I install streamlit?" Probe.start).
    reflexivity.
  - reflexivity.
Defined.

(** ** The recording loops *)

(** The records a loop adds, for any pipeline whose [query] appends one
    root record per call. *)
Lemma recording_loop_structure {World}
    (query : string -> ST (Recorder World) string) :
  (forall p st, exists subcalls,
      calls (query p st).2 =
      calls st ++ [mkCallRecord "query" [("query"%string, VStr p)]
                     (outcome_of VStr (query p st).1) subcalls]) ->
  forall (prompts : list string) (st : Recorder World),
  exists (n : nat) (new : list CallRecord),
    (n <= length prompts)%nat
    /\ calls (recording_loop query prompts st).2 = calls st ++ new
    /\ map inputs new = map (λ p, [("query"%string, VStr p)]) (take n prompts)
    /\ Forall (λ c, step_name c = "query"%string) new
    /\ ((recording_loop query prompts st).1 = Ok tt ->
        n = length prompts /\ Forall (λ c, succeeded c = true) new)
    /\ (forall e, (recording_loop query prompts st).1 = Raise e ->
        exists trees failed,
          new = trees ++ [failed]
          /\ Forall (λ c, succeeded c = true) trees
          /\ output failed = Failed e).
Proof.
  intros Hone prompts. induction prompts as [|p rest IH]; intros st.
  - exists 0%nat, []. cbn. rewrite app_nil_r. repeat split; try constructor.
    intros e He. discriminate He.
  - rewrite recording_loop_cons. destruct (Hone p st) as (sub & Hcalls).
    destruct (query p st) as [[a|e] st1]; cbn [fst snd outcome_of] in Hcalls.
    + destruct (IH st1) as (n & new & Hn & Hc & Hin & Hnames & Hok & Hraise).
      exists (S n), (mkCallRecord "query" [("query"%string, VStr p)]
                       (Returned (VStr a)) sub :: new).
      rewrite Hc, Hcalls, <- app_assoc. cbn [app length take map].
      split; [lia|]. split; [reflexivity|]. split; [now rewrite Hin|].
      split; [constructor; [reflexivity | assumption]|]. split.
      * intros Hrun. destruct (Hok Hrun) as [-> Hall].
        split; [reflexivity | constructor; [reflexivity | assumption]].
      * intros e He. destruct (Hraise e He) as (trees & failed & -> & Hall & Hout).
        exists (mkCallRecord "query" [("query"%string, VStr p)]
                  (Returned (VStr a)) sub :: trees), failed.
        split; [reflexivity|]. split; [constructor; [reflexivity | assumption] | assumption].
    + exists 1%nat, [mkCallRecord "query" [("query"%string, VStr p)] (Failed e) sub].
      cbn [fst snd length take map]. rewrite take_0.
      split; [lia|]. split; [exact Hcalls|]. split; [reflexivity|].
      split; [repeat constructor|]. split; [intros He; discriminate He|].
      intros e' [= <-]. exists [], (mkCallRecord "query" [("query"%string, VStr p)] (Failed e) sub).
      repeat split. constructor.
Qed.

(** X5: whatever the services do, the recording of a batch run through the
    unguarded pipeline holds one root record per query that was started, in
    the order of the prompts, each named [query] with its prompt as input.
    When the loop returns there is one successful record for every prompt;
    when it raises, every record but the last is successful and the last
    carries the exception. *)
Theorem recording_holds_one_root_per_started_query {Session World}
    (svc : Services Session World) (py_repr : string -> string)
    (self : RAG_from_scratch.t) (prompts : list string) (w : World) :
  let run := record_batch (RAG_from_scratch.query svc py_repr self) prompts w in
  exists n : nat,
    (n <= length prompts)%nat
    /\ map inputs (calls run.2)
       = map (λ p, [("query"%string, VStr p)]) (take n prompts)
    /\ Forall (λ c, step_name c = "query"%string) (calls run.2)
    /\ (run.1 = Ok tt ->
        n = length prompts /\ Forall (λ c, succeeded c = true) (calls run.2))
    /\ (forall e, run.1 = Raise e ->
        exists trees failed,
          calls run.2 = trees ++ [failed]
          /\ Forall (λ c, succeeded c = true) trees
          /\ output failed = Failed e).
Proof.
  intros run. subst run. unfold record_batch.
  destruct (recording_loop_structure _ (query_appends_one_record svc py_repr self)
              prompts {| world := w; calls := [] |})
    as (n & new & Hn & Hc & Hin & Hnames & Hok & Hraise).
  cbn [calls app] in Hc. rewrite Hc. exists n. repeat split; try assumption.
  - now apply Hok.
  - now apply Hok.
Qed.

Lemma filtered_query_appends_one_record {Session World}
    (svc : Services Session World) (self : filtered_RAG_from_scratch.t)
    (q : string) (st : Recorder World) :
  exists subcalls,
    calls (filtered_RAG_from_scratch.query svc self q st).2 =
    calls st ++
      [mkCallRecord "query" [("query"%string, VStr q)]
         (outcome_of VStr (filtered_RAG_from_scratch.query svc self q st).1) subcalls].
Proof.
  unfold filtered_RAG_from_scratch.query. unfold instrument at 1 2.
  match goal with
  | |- context [let '(r, st') := ?body ?init in _] => destruct (body init) as [r st']
  end.
  now exists (calls st').
Qed.

(** X6: the loop over the guarded pipeline ends at the first query that
    raises, like the loop over the unguarded one: when the queries before
    query [k] return and [k] raises [e], the loop raises [e], the queries
    after [k] are not run, and the recording holds one successful record per
    query before [k] followed by the error record of [k]. *)
Theorem filtered_recording_loop_aborts_at_first_failure {Session World}
    (svc : Services Session World) (self : filtered_RAG_from_scratch.t)
    (before : list string) (k : string) (after : list string) (e : exn)
    (w : World) (st1 : Recorder World) :
  let query := filtered_RAG_from_scratch.query svc self in
  all_return query before {| world := w; calls := [] |} st1 ->
  (query k st1).1 = Raise e ->
  record_batch query (before ++ k :: after) w = (Raise e, (query k st1).2)
  /\ exists trees failed,
       calls (record_batch query (before ++ k :: after) w).2 = trees ++ [failed]
       /\ length trees = length before
       /\ Forall (λ c, succeeded c = true) trees
       /\ map inputs trees = map (λ p, [("query"%string, VStr p)]) before
       /\ succeeded failed = false
       /\ inputs failed = [("query"%string, VStr k)].
Proof.
  intros query Hbefore Hk. unfold record_batch.
  destruct (recording_loop_stops query e k after
              (filtered_query_appends_one_record svc self) before _ _ Hbefore Hk)
    as (Heq & trees & failed & Hc & Hok & Hin & Hf & Hfin).
  rewrite Heq. split; [reflexivity|]. cbn [fst snd calls app] in *.
  exists trees, failed. repeat split; try assumption.
  rewrite <- (length_map inputs), Hin. apply length_map.
Qed.

Lemma filtered_recording_loop_aborts_at_first_failure_witness :
  (record_batch (filtered_RAG_from_scratch.query Probe.demo Probe.filtered_rag)
     (["How do I install streamlit?"%string]
        ++ "down"%string :: ["How do I add a logo to streamlit?"%string])
     Probe.fresh).1 = Raise UpstreamUnavailable.
Proof.
  eapply eq_trans.
  - eapply (f_equal fst).
    eapply (filtered_recording_loop_aborts_at_first_failure Probe.demo
              Probe.filtered_rag ["How do I install streamlit?"%string] "down"
              ["How do I add a logo to streamlit?"%string] UpstreamUnavailable
              Probe.fresh).
    + econstructor; [reflexivity | constructor].
    + reflexivity.
  - reflexivity.
Defined.

(** ** Text cleaning *)

Lemma sub_from_drop (m : matcher) (k : nat) (content : text) :
  sub_from m k content = re_sub m (drop k content).
Proof.
  revert k. induction content as [|c rest IH]; intros [|k]; try reflexivity.
  cbn [sub_from drop]. apply IH.
Qed.

Lemma sub_from_length (m : matcher) :
  shrinking m ->
  forall content k, (length (sub_from m k content) <= length content - k)%nat.
Proof.
  intros Hm. induction content as [|c rest IH]; intros k; [cbn; lia|].
  destruct k as [|k]; cbn [sub_from].
  - destruct (m (c :: rest)) as [[replacement n]|] eqn:Hmatch.
    + apply Hm in Hmatch. cbn [length] in *. rewrite length_app.
      specialize (IH (n - 1)%nat). lia.
    + specialize (IH 0%nat). cbn [length]. lia.
  - specialize (IH k). cbn [length]. lia.
Qed.

Lemma re_sub_length (m : matcher) (content : text) :
  shrinking m -> (length (re_sub m content) <= length content)%nat.
Proof. intros Hm. pose proof (sub_from_length m Hm content 0). unfold re_sub. lia. Qed.

Lemma sub_from_Forall (P : N -> Prop) (m : matcher) :
  (forall content replacement n,
      Forall P content -> m content = Some (replacement, n) -> Forall P replacement) ->
  forall content k, Forall P content -> Forall P (sub_from m k content).
Proof.
  intros Hm. induction content as [|c rest IH]; intros k Hall; [constructor|].
  pose proof (Forall_inv_tail Hall) as Hrest.
  destruct k as [|k]; cbn [sub_from]; [|now apply IH].
  destruct (m (c :: rest)) as [[replacement n]|] eqn:Hmatch.
  - apply Forall_app. split; [exact (Hm _ _ _ Hall Hmatch) | now apply IH].
  - constructor; [exact (Forall_inv Hall) | now apply IH].
Qed.

Lemma starts_with_length (pattern content : text) :
  starts_with pattern content = true -> (length pattern <= length content)%nat.
Proof.
  revert content. induction pattern as [|a pattern IH]; intros [|c rest] H;
    cbn in *; try lia; try discriminate.
  apply andb_prop in H as [_ H]. apply IH in H. lia.
Qed.

Lemma starts_with_elem_of (pattern content : text) (a : N) :
  starts_with pattern content = true -> a ∈ pattern -> a ∈ content.
Proof.
  revert content. induction pattern as [|b pattern IH]; intros [|c rest] H Hin;
    cbn in H; try discriminate; try (now inversion Hin).
  apply andb_prop in H as [Hbc H]. apply N.eqb_eq in Hbc as ->.
  apply elem_of_cons in Hin as [-> | Hin]; [left | right; eauto].
Qed.

Lemma run_of_length (class : N -> bool) (content : text) :
  (length (run_of class content) <= length content)%nat.
Proof.
  induction content as [|c rest IH]; cbn; [lia|].
  destruct (class c); cbn; lia.
Qed.

Lemma run_of_Forall (class : N -> bool) (content : text) :
  Forall (λ c, class c = true) (run_of class content).
Proof.
  induction content as [|c rest IH]; cbn; [constructor|].
  destruct (class c) eqn:Hc; constructor; assumption.
Qed.

Lemma run_of_sublist (P : N -> Prop) (class : N -> bool) (content : text) :
  Forall P content -> Forall P (run_of class content).
Proof.
  induction 1 as [|c rest Hc _ IH]; cbn; [constructor|].
  destruct (class c); constructor; assumption.
Qed.

Lemma literal_shrinking (pattern : text) :
  pattern <> [] -> shrinking (literal pattern).
Proof.
  intros Hne content replacement n. unfold literal.
  destruct (starts_with pattern content) eqn:Hs; [|discriminate].
  intros [= <- <-]. apply starts_with_length in Hs.
  destruct pattern; [congruence | cbn in *; lia].
Qed.

Lemma literal_Forall (P : N -> Prop) (pattern content : text) replacement n :
  literal pattern content = Some (replacement, n) -> Forall P replacement.
Proof.
  unfold literal. destruct (starts_with pattern content); [|discriminate].
  intros [= <- <-]. constructor.
Qed.

(** A literal of one code point leaves no occurrence of it. *)
Lemma literal_one_removed (a : N) (content : text) (k : nat) :
  Forall (λ c, c <> a) (sub_from (literal [a]) k content).
Proof.
  revert k. induction content as [|c rest IH]; intros [|k]; cbn [sub_from];
    try constructor; [|apply IH].
  unfold literal. cbn [starts_with length]. rewrite andb_true_r.
  destruct (N.eqb a c) eqn:Hac; cbn [app].
  - apply IH.
  - constructor; [|apply IH]. apply N.eqb_neq in Hac. congruence.
Qed.

Section Cleaning_properties.
Context (is_word is_space : N -> bool).

Lemma hyphenated_sound (content : text) replacement n :
  hyphenated is_word content = Some (replacement, n) ->
  (length replacement <= n /\ 1 <= n <= length content)%nat
  /\ 45%N ∈ content
  /\ forall P : N -> Prop, Forall P content -> Forall P replacement.
Proof.
  revert replacement n. induction content as [|c rest IH]; intros replacement n;
    cbn [hyphenated]; [discriminate|].
  destruct (is_word c); [|discriminate].
  destruct (hyphenated is_word rest) as [[joined n']|].
  - intros [= <- <-]. destruct (IH _ _ eq_refl) as (Hlen & Hin & Hsub).
    cbn [length]. split; [lia|]. split; [now right|].
    intros P Hall. constructor; [exact (Forall_inv Hall)|].
    apply Hsub, (Forall_inv_tail Hall).
  - destruct rest as [|a [|b rest']]; try discriminate.
    destruct (N.eqb a 45) eqn:Ha; [|discriminate].
    destruct (N.eqb b 10) eqn:Hb; [|discriminate]. cbn [andb].
    destruct (run_of is_word rest') as [|s second] eqn:Hrun; [discriminate|].
    intros [= <- <-]. apply N.eqb_eq in Ha as ->.
    pose proof (run_of_length is_word rest') as Hlen. rewrite Hrun in Hlen.
    cbn [length] in *. split; [lia|]. split; [right; left|].
    intros P Hall. constructor; [exact (Forall_inv Hall)|].
    rewrite <- Hrun. apply run_of_sublist.
    apply Forall_inv_tail, Forall_inv_tail, Forall_inv_tail in Hall. exact Hall.
Qed.

Lemma slug_sound (content : text) replacement n :
  slug is_space content = Some (replacement, n) ->
  replacement = []
  /\ (1 <= n <= length content)%nat
  /\ 58%N ∈ content.
Proof.
  unfold slug. destruct (starts_with (codes "\slug: ") content) eqn:Hs; [|discriminate].
  intros [= <- <-]. split; [reflexivity|].
  pose proof (starts_with_length _ _ Hs) as Hlen.
  pose proof (run_of_length (λ c, negb (is_space c))
                (drop (length (codes "\slug: ")) content)) as Hrun.
  rewrite length_drop in Hrun.
  split; [cbn [codes length] in *; lia|].
  apply (starts_with_elem_of _ _ _ Hs). vm_compute. repeat constructor.
Qed.

Lemma spaces_sound (content : text) replacement n :
  spaces is_space content = Some (replacement, n) ->
  replacement = [32%N] /\ (1 <= n <= length content)%nat.
Proof.
  unfold spaces. pose proof (run_of_length is_space content) as Hlen.
  destruct (run_of is_space content) as [|s blank]; [discriminate|].
  intros [= <- <-]. cbn [length] in *. split; [reflexivity | lia].
Qed.

Lemma re_sub_le (m : matcher) (content : text) (bound : nat) :
  shrinking m -> (length content <= bound)%nat ->
  (length (re_sub m content) <= bound)%nat.
Proof. intros Hm Hle. pose proof (re_sub_length m content Hm). lia. Qed.

Lemma hyphenated_shrinking : shrinking (hyphenated is_word).
Proof. intros t r n H. now apply hyphenated_sound in H as (Hn & _). Qed.

Lemma slug_shrinking : shrinking (slug is_space).
Proof. intros t r n H. apply slug_sound in H as (-> & Hn & _). cbn. lia. Qed.

Lemma spaces_shrinking : shrinking (spaces is_space).
Proof. intros t r n H. apply spaces_sound in H as [-> Hn]. cbn. lia. Qed.

(** X7: cleaning never makes a text longer. *)
Theorem clean_up_text_never_longer (content : text) :
  (length (clean_up_text is_word is_space content) <= length content)%nat.
Proof.
  unfold clean_up_text, unwanted_patterns. cbn [fold_left].
  apply re_sub_le; [apply spaces_shrinking|].
  apply re_sub_le; [apply slug_shrinking|].
  do 4 (apply re_sub_le; [apply literal_shrinking; discriminate|]).
  apply re_sub_le; [apply hyphenated_shrinking | lia].
Qed.

Lemma re_sub_Forall (P : N -> Prop) (m : matcher) (content : text) :
  (forall t replacement n,
      Forall P t -> m t = Some (replacement, n) -> Forall P replacement) ->
  Forall P content -> Forall P (re_sub m content).
Proof. intros Hm. apply sub_from_Forall, Hm. Qed.

(** X8: a cleaned text holds no number sign, whatever the text was. *)
Theorem clean_up_text_has_no_number_sign (content : text) :
  35%N ∉ clean_up_text is_word is_space content.
Proof.
  unfold clean_up_text, unwanted_patterns. cbn [fold_left].
  enough (Forall (λ c : N, c <> 35%N)
            (re_sub (spaces is_space)
               (re_sub (slug is_space)
                  (re_sub (literal (codes "slug:"))
                     (re_sub (literal (codes "#"))
                        (re_sub (literal (codes "---"))
                           (re_sub (literal (codes ("---" +:+ nl +:+ "visible: false")))
                              (re_sub (hyphenated is_word) content)))))))) as Hall.
  { intros Hin. rewrite Forall_forall in Hall. now apply (Hall _ Hin). }
  apply re_sub_Forall.
  { intros t r n _ H. apply spaces_sound in H as [-> _]. repeat constructor. discriminate. }
  apply re_sub_Forall.
  { intros t r n _ H. apply slug_sound in H as (-> & _). constructor. }
  apply re_sub_Forall.
  { intros t r n _ H. eapply literal_Forall, H. }
  apply literal_one_removed.
Qed.

End Cleaning_properties.

Section Whitespace.
Context (is_word is_space : N -> bool).

Lemma run_of_cons_length (c : N) (rest : text) (k : nat) :
  length (run_of is_space (c :: rest)) = S k ->
  is_space c = true /\ length (run_of is_space rest) = k.
Proof.
  cbn [run_of]. destruct (is_space c); cbn [length]; [|discriminate].
  intros [= <-]. now split.
Qed.

Lemma spaces_cons (c : N) (rest : text) :
  spaces is_space (c :: rest) =
  if is_space c then Some ([32%N], S (length (run_of is_space rest))) else None.
Proof. unfold spaces. cbn [run_of]. now destruct (is_space c). Qed.

(** The whitespace pass: its output is normalized; behind a run of
    whitespace that is passed whole, the output does not start with
    whitespace. *)
Lemma spaces_pass_normalized (content : text) :
  normalized is_space (sub_from (spaces is_space) 0 content)
  /\ forall k, length (run_of is_space content) = k ->
       normalized is_space (sub_from (spaces is_space) k content)
       /\ head_not_space is_space (sub_from (spaces is_space) k content).
Proof.
  induction content as [|c rest [IH0 IHk]].
  - split; [exact I|]. intros k _. destruct k; split; exact I.
  - assert (H0 : normalized is_space (sub_from (spaces is_space) 0 (c :: rest))
                 /\ (is_space c = false ->
                     head_not_space is_space (sub_from (spaces is_space) 0 (c :: rest)))).
    { cbn [sub_from]. rewrite spaces_cons.
      destruct (is_space c) eqn:Hc.
      - cbn [app]. rewrite Nat.sub_succ, Nat.sub_0_r.
        destruct (IHk _ eq_refl) as [Hnorm Hhead].
        split; [|discriminate]. cbn [normalized]. split; [|exact Hnorm].
        intros _. now split.
      - split; [|intros _; exact Hc]. cbn [normalized]. split; [|exact IH0].
        rewrite Hc. discriminate. }
    split; [apply H0|]. intros [|k] Hk.
    + split; [apply H0|]. apply H0. cbn [run_of] in Hk.
      destruct (is_space c); [discriminate | reflexivity].
    + apply run_of_cons_length in Hk as [_ Hk]. cbn [sub_from]. now apply IHk.
Qed.

Lemma normalized_lookup (content : text) (i : nat) (c : N) :
  normalized is_space content ->
  content !! i = Some c -> is_space c = true ->
  c = 32%N /\ forall d, content !! S i = Some d -> is_space d = false.
Proof.
  revert i. induction content as [|x rest IH]; intros i Hnorm Hi Hc;
    [discriminate|].
  destruct Hnorm as [Hx Hrest]. destruct i as [|i]; cbn in Hi.
  - injection Hi as ->. destruct (Hx Hc) as [-> Hhead]. split; [reflexivity|].
    intros d Hd. cbn in Hd. destruct rest; [discriminate|].
    cbn in Hd, Hhead. now injection Hd as <-.
  - destruct (IH i Hrest Hi Hc) as [-> Hnext]. split; [reflexivity|].
    intros d Hd. now apply Hnext.
Qed.

(** X9: in a cleaned text every whitespace code point is the space U+0020,
    and no whitespace follows it: no newline, tab or other whitespace is
    left, and no two spaces in a row. *)
Theorem clean_up_text_whitespace_normalized (content : text) (i : nat) (c : N) :
  clean_up_text is_word is_space content !! i = Some c ->
  is_space c = true ->
  c = 32%N
  /\ forall d, clean_up_text is_word is_space content !! S i = Some d ->
       is_space d = false.
Proof.
  intros Hi Hc. apply (normalized_lookup _ i c); [|exact Hi | exact Hc].
  unfold clean_up_text, re_sub. apply (proj1 (spaces_pass_normalized _)).
Qed.

Lemma re_sub_untouched (P : N -> Prop) (m : matcher) (content : text) :
  (forall t, Forall P t -> m t = None) ->
  Forall P content -> re_sub m content = content.
Proof.
  intros Hm. unfold re_sub. induction 1 as [|c rest Hc Hrest IH]; [reflexivity|].
  cbn [sub_from]. rewrite Hm by now constructor. now rewrite IH.
Qed.

Lemma literal_absent (pattern : text) (a : N) (content : text) :
  a ∈ pattern -> Forall (λ c, c <> a) content -> literal pattern content = None.
Proof.
  intros Hin Hall. unfold literal.
  destruct (starts_with pattern content) eqn:Hs; [|reflexivity].
  pose proof (starts_with_elem_of _ _ _ Hs Hin) as Hc.
  rewrite Forall_forall in Hall. now destruct (Hall _ Hc).
Qed.

Lemma spaces_pass_identity (content : text) :
  normalized is_space content -> re_sub (spaces is_space) content = content.
Proof.
  unfold re_sub. induction content as [|c rest IH]; intros Hnorm; [reflexivity|].
  destruct Hnorm as [Hc Hrest]. cbn [sub_from]. rewrite spaces_cons.
  destruct (is_space c) eqn:Hsp.
  - destruct (Hc eq_refl) as [-> Hhead].
    assert (Hrun : run_of is_space rest = []).
    { destruct rest as [|d rest']; [reflexivity|]. cbn in Hhead |- *. now rewrite Hhead. }
    rewrite Hrun. cbn [length app Nat.sub]. now rewrite IH.
  - now rewrite IH.
Qed.

Lemma hyphenated_absent (content : text) :
  Forall (λ c : N, c <> 45%N) content -> hyphenated is_word content = None.
Proof.
  intros Hall. destruct (hyphenated is_word content) as [[r n]|] eqn:Hm; [|reflexivity].
  apply hyphenated_sound in Hm as (_ & Hin & _).
  rewrite Forall_forall in Hall. now destruct (Hall _ Hin).
Qed.

Lemma slug_absent (content : text) :
  Forall (λ c : N, c <> 58%N) content -> slug is_space content = None.
Proof.
  intros Hall. destruct (slug is_space content) as [[r n]|] eqn:Hm; [|reflexivity].
  apply slug_sound in Hm as (_ & _ & Hin).
  rewrite Forall_forall in Hall. now destruct (Hall _ Hin).
Qed.

(** X10: a text that is clean already is returned as it is: with no
    hyphen, no number sign and no colon in it, and with its whitespace
    normalized, no pass changes it. *)
Theorem clean_up_text_keeps_clean_text (content : text) :
  45%N ∉ content -> 35%N ∉ content -> 58%N ∉ content ->
  normalized is_space content ->
  clean_up_text is_word is_space content = content.
Proof.
  intros Hhyphen Hhash Hcolon Hnorm.
  assert (H45 : Forall (λ c : N, c <> 45%N) content).
  { apply Forall_forall. intros c Hc ->. contradiction. }
  assert (H35 : Forall (λ c : N, c <> 35%N) content).
  { apply Forall_forall. intros c Hc ->. contradiction. }
  assert (H58 : Forall (λ c : N, c <> 58%N) content).
  { apply Forall_forall. intros c Hc ->. contradiction. }
  assert (Hin1 : 45%N ∈ codes ("---" +:+ nl +:+ "visible: false"))
    by (vm_compute; repeat constructor).
  assert (Hin2 : 45%N ∈ codes "---") by (vm_compute; repeat constructor).
  assert (Hin3 : 35%N ∈ codes "#") by (vm_compute; repeat constructor).
  assert (Hin4 : 58%N ∈ codes "slug:") by (vm_compute; repeat constructor).
  unfold clean_up_text, unwanted_patterns. cbn [fold_left].
  rewrite (re_sub_untouched _ _ content hyphenated_absent H45).
  rewrite (re_sub_untouched _ _ content (λ t, literal_absent _ _ t Hin1) H45).
  rewrite (re_sub_untouched _ _ content (λ t, literal_absent _ _ t Hin2) H45).
  rewrite (re_sub_untouched _ _ content (λ t, literal_absent _ _ t Hin3) H35).
  rewrite (re_sub_untouched _ _ content (λ t, literal_absent _ _ t Hin4) H58).
  rewrite (re_sub_untouched _ _ content slug_absent H58).
  now apply spaces_pass_identity.
Qed.

End Whitespace.

Lemma clean_up_text_keeps_clean_text_witness :
  clean_up_text Ascii_classes.is_word Ascii_classes.is_space
    (codes "Run streamlit hello to start")
  = codes "Run streamlit hello to start".
Proof.
  apply (clean_up_text_keeps_clean_text Ascii_classes.is_word Ascii_classes.is_space
           (codes "Run streamlit hello to start")).
  - rewrite list_elem_of_In. vm_compute. intuition discriminate.
  - rewrite list_elem_of_In. vm_compute. intuition discriminate.
  - rewrite list_elem_of_In. vm_compute. intuition discriminate.
  - vm_compute. repeat split; discriminate.
Defined.

Lemma clean_up_text_whitespace_normalized_witness :
  32%N = 32%N
  /\ forall d,
       clean_up_text Ascii_classes.is_word Ascii_classes.is_space
         (codes ("a" +:+ nl +:+ nl +:+ "b")) !! 2%nat = Some d ->
       Ascii_classes.is_space d = false.
Proof.
  apply (clean_up_text_whitespace_normalized Ascii_classes.is_word
           Ascii_classes.is_space (codes ("a" +:+ nl +:+ nl +:+ "b")) 1 32%N).
  - reflexivity.
  - reflexivity.
Defined.

Section Hyphenation.
Context (is_word is_space : N -> bool).
Hypothesis hyphen_not_word : is_word 45%N = false.
Hypothesis newline_not_word : is_word 10%N = false.

Lemma run_of_word_run (word rest : text) :
  Forall (λ c, is_word c = true) word ->
  run_of is_word (word ++ 45%N :: rest) = word.
Proof.
  induction 1 as [|c word Hc _ IH]; cbn [app run_of].
  - now rewrite hyphen_not_word.
  - now rewrite Hc, IH.
Qed.

(** The pattern at the start of a word that is broken by a hyphen and a
    newline, the second part ending before a hyphen: the match is the
    broken word, the replacement its two parts. *)
Lemma hyphenated_broken_word (first second rest : text) :
  first <> [] -> Forall (λ c, is_word c = true) first ->
  second <> [] -> Forall (λ c, is_word c = true) second ->
  hyphenated is_word (first ++ 45%N :: 10%N :: second ++ 45%N :: rest)
  = Some (first ++ second, (length first + 2 + length second)%nat).
Proof.
  intros Hne Hfirst Hne2 Hsecond.
  induction Hfirst as [|c first Hc Hfirst IH]; [congruence|].
  cbn [app hyphenated]. rewrite Hc. destruct first as [|c' first'].
  - cbn [app hyphenated]. rewrite hyphen_not_word. cbn [N.eqb Pos.eqb andb].
    rewrite run_of_word_run by assumption.
    destruct second; [congruence | reflexivity].
  - rewrite IH by discriminate. reflexivity.
Qed.

(** X11: a word broken by a hyphen and a newline is joined; when the joined
    word is broken again right behind, that second break is kept: the scan
    goes on behind the first match, where the hyphen has no word before it
    any more. *)
Theorem hyphenation_joins_only_the_first_break (first second rest : text) :
  first <> [] -> Forall (λ c, is_word c = true) first ->
  second <> [] -> Forall (λ c, is_word c = true) second ->
  re_sub (hyphenated is_word)
    (first ++ 45%N :: 10%N :: second ++ 45%N :: 10%N :: rest)
  = first ++ second ++ 45%N :: 10%N :: re_sub (hyphenated is_word) rest.
Proof.
  intros Hne Hfirst Hne2 Hsecond.
  pose proof (hyphenated_broken_word first second (10%N :: rest)
                Hne Hfirst Hne2 Hsecond) as Hmatch.
  destruct first as [|c first']; [congruence|].
  unfold re_sub at 1. cbn [app sub_from] in *. rewrite Hmatch.
  rewrite sub_from_drop.
  assert (Hdrop : drop (length (c :: first') + 2 + length second - 1)
                    (first' ++ 45%N :: 10%N :: second ++ 45%N :: 10%N :: rest)
                  = 45%N :: 10%N :: rest).
  { replace (length (c :: first') + 2 + length second - 1)%nat
      with (length first' + (2 + length second))%nat by (cbn [length]; lia).
    rewrite drop_app_add. cbn [drop Nat.add].
    now rewrite drop_app_length. }
  rewrite Hdrop. unfold re_sub at 1. cbn [sub_from hyphenated].
  rewrite hyphen_not_word, newline_not_word.
  cbn [app]. rewrite <- ?app_assoc. reflexivity.
Qed.

End Hyphenation.

Lemma hyphenation_joins_only_the_first_break_witness :
  re_sub (hyphenated Ascii_classes.is_word)
    (codes "abc" ++ 45%N :: 10%N :: codes "def" ++ 45%N :: 10%N :: codes "ghi")
  = codes "abc" ++ codes "def" ++ 45%N :: 10%N
      :: re_sub (hyphenated Ascii_classes.is_word) (codes "ghi").
Proof.
  apply (hyphenation_joins_only_the_first_break Ascii_classes.is_word).
  - reflexivity.
  - reflexivity.
  - discriminate.
  - repeat constructor.
  - discriminate.
  - repeat constructor.
Defined.

(** ** Cleaning the loaded documents *)

Lemma clean_documents_from (clean : text -> text) (documents : list nat) :
  forall (objects : store) (cleaned_documents : list nat),
    Forall (λ d, (d < length objects)%nat) documents ->
    (clean_documents clean documents objects cleaned_documents).2
      = cleaned_documents ++ documents
    /\ length (clean_documents clean documents objects cleaned_documents).1
       = length objects
    /\ forall d d_text, objects !! d = Some d_text ->
         (clean_documents clean documents objects cleaned_documents).1 !! d
         = Some (Nat.iter (length (filter (λ x, x = d) documents)) clean d_text).
Proof.
  induction documents as [|d0 rest IH]; intros objects cleaned Hvalid.
  - cbn. rewrite app_nil_r. auto.
  - inversion Hvalid as [|? ? Hd0 Hrest]; subst.
    destruct (lookup_lt_is_Some_2 objects d0 Hd0) as [t0 Ht0].
    cbn [clean_documents]. rewrite Ht0.
    assert (Hvalid' : Forall (λ d, (d < length (<[d0:=clean t0]> objects))%nat) rest)
      by now rewrite length_insert.
    destruct (IH (<[d0:=clean t0]> objects) (cleaned ++ [d0]) Hvalid')
      as (Hlist & Hlen & Htexts).
    split; [now rewrite Hlist, <- app_assoc|].
    split; [now rewrite Hlen, length_insert|].
    intros d d_text Hd. rewrite filter_cons. destruct (decide (d0 = d)) as [->|Hne].
    + cbn [length]. rewrite Nat.iter_succ_r.
      apply Htexts. rewrite list_lookup_insert_eq by assumption.
      congruence.
    + apply Htexts. now rewrite list_lookup_insert_ne.
Qed.

(** X12: the loop cleans the documents in place.  The list
    [cleaned_documents] it builds holds the very objects of [documents], in
    the same order, so the texts reached through [documents] are the cleaned
    ones too; the store keeps its size; the text of every object has been
    cleaned once for each time the object occurs in the list, twice for an
    object listed twice, not at all for an object that is not listed. *)
Theorem clean_documents_in_place (clean : text -> text) (documents : list nat)
    (objects : store) :
  Forall (λ d, (d < length objects)%nat) documents ->
  (clean_documents clean documents objects []).2 = documents
  /\ length (clean_documents clean documents objects []).1 = length objects
  /\ forall d d_text, objects !! d = Some d_text ->
       (clean_documents clean documents objects []).1 !! d
       = Some (Nat.iter (length (filter (λ x, x = d) documents)) clean d_text).
Proof. intros Hvalid. exact (clean_documents_from clean documents objects [] Hvalid). Qed.

Lemma clean_documents_in_place_witness :
  (clean_documents (clean_up_text Ascii_classes.is_word Ascii_classes.is_space)
     [0; 1; 0]%nat [codes "a  b"; codes "# c"] []).2 = [0; 1; 0]%nat.
Proof.
  apply (clean_documents_in_place
           (clean_up_text Ascii_classes.is_word Ascii_classes.is_space)
           [0; 1; 0]%nat [codes "a  b"; codes "# c"]).
  repeat constructor.
Defined.

(** ** Constructing the pipelines *)

(** X13: constructing the unguarded pipeline never gives an object.  Its
    [__init__] calls [CortexSearchRetriever] with the keyword
    [snowpark_session], which is no parameter of that class: the call raises
    for the unexpected keyword once the global [snowpark_session] is bound,
    and for the unbound name before that. *)
Theorem RAG_from_scratch_init_always_raises {Session : Type}
    (names : gmap string Session) :
  RAG_from_scratch_init names
  = inl (match names !! "snowpark_session"%string with
         | Some _ => UnexpectedKeyword "snowpark_session"
         | None => NameError "snowpark_session"
         end).
Proof.
  unfold RAG_from_scratch_init, global.
  destruct (names !! "snowpark_session"%string); reflexivity.
Qed.

(** X14: constructing the guarded pipeline reads the global [session]: with
    it bound, the pipeline gets a retriever on that session with the limit
    4; without it, as after the cells of the notebook, which bind
    [snowpark_session] only, the construction raises [NameError]. *)
Theorem filtered_RAG_from_scratch_init_reads_global_session {Session : Type}
    (names : gmap string Session) :
  filtered_RAG_from_scratch_init names
  = match names !! "session"%string with
    | Some session =>
        inr {| filtered_RAG_from_scratch.retriever :=
                 {| _session := session; _limit_to_retrieve := 4 |} |}
    | None => inl (NameError "session")
    end.
Proof.
  unfold filtered_RAG_from_scratch_init, global.
  destruct (names !! "session"%string); reflexivity.
Qed.

(** ** The unguarded query: a failed retrieval *)

(** X15: when the retriever raises, the unguarded [query] raises the same
    exception and never calls [Complete]: the outside world is left as the
    retriever left it. *)
Theorem query_stops_at_failed_retrieval {Session World}
    (svc : Services Session World) (py_repr : string -> string)
    (self : RAG_from_scratch.t) (q : string) (st : Recorder World)
    (e : exn) (w1 : World) :
  retrieve svc (RAG_from_scratch.retriever self) q (world st) = (Raise e, w1) ->
  (RAG_from_scratch.query svc py_repr self q st).1 = Raise e
  /\ world (RAG_from_scratch.query svc py_repr self q st).2 = w1.
Proof.
  intros Hr. rewrite (query_reraises_retrieval_failure svc py_repr self q st e w1 Hr).
  split; reflexivity.
Qed.

Lemma query_stops_at_failed_retrieval_witness :
  (RAG_from_scratch.query Probe.demo Probe.quote Probe.rag "down" Probe.start).1
    = Raise UpstreamUnavailable
  /\ world (RAG_from_scratch.query Probe.demo Probe.quote Probe.rag "down"
              Probe.start).2
     = {| Probe.searched := ["down"%string]; Probe.completed := [];
          Probe.judged := [] |}.
Proof.
  apply (query_stops_at_failed_retrieval Probe.demo Probe.quote Probe.rag "down"
           Probe.start UpstreamUnavailable).
  reflexivity.
Defined.
